(** * DynamicBFS: breadth-first search over a dynamically generated tree

    A shallow embedding of [DynamicBFS.cpp]: the abstract [Problem]
    interface, the river-crossing [BFSProblem] with its bit-encoded states,
    the search-tree [Node], and the [BFS] engine with its FIFO frontier,
    its explored list and the list of all nodes it allocates.

    Modelling conventions.
    - A C++ [short] is a [Z]; [to_short] is the conversion applied when an
      [int] expression is assigned to a [short].  Bit operations are the
      ones of [Z] ([Z.land], [Z.lor], [Z.lnot]), which agree with the
      two's-complement operations of the promoted [int] operands.
    - A [deque<T>] is a [list T]; [push_back] appends, [front]/[pop_front]
      take the head.
    - A [Node*] is a [NodePtr]: the address returned by [new] together with
      the object it points to (nodes are never mutated after construction).
      Addresses are handed out in allocation order, i.e. the address of a
      node is its index in the [expanded] deque, which records every node
      the search creates.  The [parent] field of the C++ class is never
      assigned nor read and is left out.
    - The [while] loop of [BFS] is iterated with fuel; [None] means the fuel
      ran out, and termination is proved separately.
    - The success exit of [BFS] deletes every node of [expanded], the
      goal child among them, and then calls [child->solution()].  A call
      of [solution] on a deleted node has no defined value: it is the
      outcome [ReadDeleted], kept apart from a returned [Deque]. *)

From Stdlib Require Import String.
From Stdlib Require Import ZArith List Bool Lia Arith.
Import ListNotations.

Local Open Scope Z_scope.

(** ** Machine integers *)

Definition short := Z.

Definition short_range (z : Z) : Prop := -32768 <= z < 32768.

(** Conversion of an [int] value to [short] (two's complement wrap). *)
Definition to_short (z : Z) : short := (z + 32768) mod 65536 - 32768.

(** ** State and action encoding (the [#define]s) *)

Definition RW : Z := 0x01.
Definition RG : Z := 0x02.
Definition RC : Z := 0x04.
Definition RP : Z := 0x08.
Definition LW : Z := 0x10.
Definition LG : Z := 0x20.
Definition LC : Z := 0x40.
Definition LP : Z := 0x80.
Definition RPCGW : Z := 0x0F.
Definition PCGWR : Z := 0xF0.
Definition PGRCW : Z := 0xA5.
Definition CWRPG : Z := 0x5A.
Definition PCGRW : Z := 0xE1.
Definition WRPCG : Z := 0x1E.
Definition CRPGW : Z := 0x4B.
Definition PGWRC : Z := 0xB4.
Definition GRPCW : Z := 0x2D.
Definition PCWRG : Z := 0xD2.

(** ** class Problem *)

Record Problem : Type := mkProblem {
  initial : short;
  goal : short;
  actions : short -> list short;
  result : short -> short -> short
}.

Definition goal_test (p : Problem) (g : short) : bool := goal p =? g.

(** The values a C++ implementation of the interface can hold and return:
    every state is a [short]. *)
Definition well_typed (p : Problem) : Prop :=
  short_range (initial p) /\
  forall s a, short_range s -> In a (actions p s) -> short_range (result p s a).

(** ** class Node *)

Record Node : Type := mkNode {
  state : short;
  action : short;
  soln : list short
}.

Definition solution (n : Node) : list short := soln n.

Definition getState (n : Node) : short := state n.

(** [Node::Node(short s, short a = 0, Node* p = nullptr)] *)
Definition Node_new (s a : short) (p : option Node) : Node :=
  {| state := s;
     action := a;
     soln := (match p with Some q => solution q | None => [] end) ++ [a] |}.

(** The root node [new Node(s)], with the defaulted action [0]. *)
Definition Node_root (s : short) : Node := Node_new s 0 None.

(** ** class BFSProblem *)

Module BFSProblem.

Definition actions (state : short) : list short :=
  if state =? RPCGW then [to_short (Z.lor LP LG)]
  else if state =? PGRCW then [to_short RP; to_short (Z.lor RP RG)]
  else if state =? PCGRW then [to_short (Z.lor RP RC); to_short (Z.lor RP RG)]
  else if state =? CRPGW then [to_short (Z.lor LP LG); to_short (Z.lor LP LW)]
  else if state =? PCWRG then
    [to_short (Z.lor RP RC); to_short (Z.lor RP RW); to_short RP]
  else if state =? WRPCG then [to_short (Z.lor LP LC); to_short (Z.lor LP LG)]
  else if state =? CWRPG then [to_short LP; to_short (Z.lor LP LG)]
  else if state =? GRPCW then
    [to_short LP; to_short (Z.lor LP LC); to_short (Z.lor LP LW)]
  else if state =? PGWRC then [to_short (Z.lor RP RG); to_short (Z.lor RP RW)]
  else [].

Definition result (state action : short) : short :=
  if action =? LP then
    to_short (Z.lor (Z.land state (Z.lnot RP)) LP)
  else if action =? Z.lor LP LC then
    to_short (Z.lor (Z.lor (Z.land (Z.land state (Z.lnot RP)) (Z.lnot RC)) LP) LC)
  else if action =? Z.lor LP LG then
    to_short (Z.lor (Z.lor (Z.land (Z.land state (Z.lnot RP)) (Z.lnot RG)) LP) LG)
  else if action =? Z.lor LP LW then
    to_short (Z.lor (Z.lor (Z.land (Z.land state (Z.lnot RP)) (Z.lnot RW)) LP) LW)
  else if action =? RP then
    to_short (Z.lor (Z.land state (Z.lnot LP)) RP)
  else if action =? Z.lor RP RC then
    to_short (Z.lor (Z.lor (Z.land (Z.land state (Z.lnot LP)) (Z.lnot LC)) RP) RC)
  else if action =? Z.lor RP RG then
    to_short (Z.lor (Z.lor (Z.land (Z.land state (Z.lnot LP)) (Z.lnot LG)) RP) RG)
  else if action =? Z.lor RP RW then
    to_short (Z.lor (Z.lor (Z.land (Z.land state (Z.lnot LP)) (Z.lnot LW)) RP) RW)
  else state.

(** [BFSProblem(short initial, short goal = 0)] *)
Definition make (initial goal : short) : Problem :=
  mkProblem initial goal actions result.

End BFSProblem.

(** The instance built by [main]. *)
Definition main_problem : Problem := BFSProblem.make RPCGW PCGWR.

(** ** Pointers to nodes *)

Record NodePtr : Type := mkPtr {
  addr : nat;
  obj : Node
}.

(** Equality of two [Node*] values, as [std::find] tests it. *)
Definition ptr_eqb (a b : NodePtr) : bool := Nat.eqb (addr a) (addr b).

(** [std::find(first, last, v) != last] *)
Definition find_ptr (l : list NodePtr) (v : NodePtr) : bool :=
  existsb (fun q => ptr_eqb q v) l.

Definition find_short (l : list short) (v : short) : bool :=
  existsb (fun x => x =? v) l.

(** ** The search engine *)

(** The local collections of [BFS]. *)
Record bfs_state : Type := mkState {
  frontier : list NodePtr;
  expanded : list NodePtr;
  explored : list short
}.

(** [new Node(...)]: the fresh address is the next index of [expanded]. *)
Definition alloc (st : bfs_state) (n : Node) : NodePtr :=
  mkPtr (length (expanded st)) n.

(** The free function [childNode(prob, parent, action)]. *)
Definition childNode (prob : Problem) (st : bfs_state) (parent : NodePtr)
    (action : short) : NodePtr :=
  alloc st (Node_new (result prob (getState (obj parent)) action) action
                     (Some (obj parent))).

(** What a call of [BFS] ends in: a deque that is returned, or the call
    of [solution] on a node that has been deleted, which returns nothing
    that is defined. *)
Inductive returned : Type :=
| Deque (sol : list short)
| ReadDeleted (n : NodePtr).

(** [for(Node* n : expanded) delete n;]: the addresses that are no longer
    live afterwards. *)
Definition delete_all (expanded : list NodePtr) : list nat :=
  map addr expanded.

(** [n->solution()] when the nodes at the addresses [deleted] have been
    deleted. *)
Definition call_solution (deleted : list nat) (n : NodePtr) : returned :=
  if existsb (Nat.eqb (addr n)) deleted
  then ReadDeleted n
  else Deque (solution (obj n)).

(** What one pass through a loop body produces: an early [return], or the
    collections to go on with. *)
Inductive flow : Type :=
| Return (r : returned) (st : bfs_state)
| Continue (st : bfs_state).

(** The range-[for] over [p->actions(node->getState())]. *)
Fixpoint for_actions (p : Problem) (node : NodePtr) (acts : list short)
    (st : bfs_state) : flow :=
  match acts with
  | [] => Continue st
  | action :: rest =>
      let child := childNode p st node action in
      let st1 := mkState (frontier st) (expanded st ++ [child]) (explored st) in
      if negb (find_ptr (frontier st1) child)
         && negb (find_short (explored st1) (getState (obj child)))
      then
        if goal_test p (getState (obj child))
        then Return (call_solution (delete_all (expanded st1)) child) st1
        else for_actions p node rest
               (mkState (frontier st1 ++ [child]) (expanded st1) (explored st1))
      else for_actions p node rest st1
  end.

(** One iteration of [while(!frontier.empty())], entered with the front
    node already taken off the frontier. *)
Definition loop_body (p : Problem) (node : NodePtr) (rest : list NodePtr)
    (st : bfs_state) : flow :=
  let st1 := mkState rest (expanded st) (explored st ++ [getState (obj node)]) in
  for_actions p node (actions p (getState (obj node))) st1.

Fixpoint while_frontier (fuel : nat) (p : Problem) (solution : list short)
    (st : bfs_state) : option (returned * bfs_state) :=
  match fuel with
  | O => None
  | S fuel' =>
      match frontier st with
      | [] => Some (Deque solution, st)
      | node :: rest =>
          match loop_body p node rest st with
          | Return r st' => Some (r, st')
          | Continue st' => while_frontier fuel' p solution st'
          end
      end
  end.

(** The collections when the loop is first reached. *)
Definition BFS_init (p : Problem) : bfs_state :=
  let node := mkPtr 0 (Node_root (initial p)) in
  mkState [node] [node] [].

(** The value of the local [solution] when the loop is first reached. *)
Definition BFS_solution0 (p : Problem) : list short :=
  if goal_test p (getState (Node_root (initial p)))
  then solution (Node_root (initial p))
  else [].

(** [BFS] together with the collections it holds when it returns. *)
Definition BFS_run (fuel : nat) (p : Problem) : option (returned * bfs_state) :=
  while_frontier fuel p (BFS_solution0 p) (BFS_init p).

(** [deque<short> BFS(BFSProblem* p)] *)
Definition BFS (fuel : nat) (p : Problem) : option returned :=
  option_map fst (BFS_run fuel p).

(** The collections after [n] complete iterations of the loop, if the
    search is still running then. *)
Fixpoint BFS_after (n : nat) (p : Problem) (st : bfs_state) : option bfs_state :=
  match n with
  | O => Some st
  | S n' =>
      match frontier st with
      | [] => None
      | node :: rest =>
          match loop_body p node rest st with
          | Return _ _ => None
          | Continue st' => BFS_after n' p st'
          end
      end
  end.

(** ** Action sequences *)

(** Replaying a sequence of actions with [result]. *)
Definition exec (p : Problem) (s : short) (acts : list short) : short :=
  fold_left (result p) acts s.

(** Every action of the sequence is one [actions] offers in the state it is
    applied to. *)
Fixpoint legal (p : Problem) (s : short) (acts : list short) : Prop :=
  match acts with
  | [] => True
  | a :: rest => In a (actions p s) /\ legal p (result p s a) rest
  end.

(** The action sequence leads from the initial state to a goal state. *)
Definition solves (p : Problem) (acts : list short) : Prop :=
  legal p (initial p) acts /\ goal_test p (exec p (initial p) acts) = true.

(** [n] is the least number of actions of a sequence that solves [p]. *)
Definition min_actions (p : Problem) (n : nat) : Prop :=
  (exists acts, solves p acts /\ length acts = n) /\
  (forall acts, solves p acts -> (n <= length acts)%nat).

(** A finite set of states that holds the initial state and is closed under
    the transitions the problem offers. *)
Definition closed_universe (p : Problem) (univ : list short) : Prop :=
  In (initial p) univ /\
  forall s a, In s univ -> In a (actions p s) -> In (result p s a) univ.

(** A chain of [depth] constructor calls below a node: each step builds a
    child of the previous node from a state and an action. *)
Definition descend (n : Node) (steps : list (short * short)) : Node :=
  fold_left (fun q sa => Node_new (fst sa) (snd sa) (Some q)) steps n.

(** ** The river-crossing encoding *)

(** The eight move codes [result] recognises. *)
Definition move_codes : list short :=
  [LP; Z.lor LP LC; Z.lor LP LG; Z.lor LP LW;
   RP; Z.lor RP RC; Z.lor RP RG; Z.lor RP RW].

(** The nine states [actions] has a branch for. *)
Definition listed_states : list short :=
  [RPCGW; PGRCW; PCGRW; CRPGW; PCWRG; WRPCG; CWRPG; GRPCW; PGWRC].

(** Entity [i] (0 wolf, 1 goat, 2 cabbage, 3 peasant) is on exactly one
    bank: its right-bank bit [i] and its left-bank bit [i+4] differ. *)
Definition one_bank (s : short) (i : Z) : bool :=
  xorb (Z.testbit s i) (Z.testbit s (i + 4)).

Definition valid_state (s : short) : bool :=
  (0 <=? s) && (s <? 256) &&
  one_bank s 0 && one_bank s 1 && one_bank s 2 && one_bank s 3.

(** The bits of the bank opposite to the one a move code names. *)
Definition other_bank (a : short) : Z :=
  if a <? 16 then Z.shiftl a 4 else Z.shiftr a 4.

(** ** The river-crossing instances and their states *)

(** The seven moves behind the sentinel in the path of the goal child the
    search of [main] builds. *)
Definition main_moves : list short :=
  [Z.lor LP LG; RP; Z.lor LP LC; Z.lor RP RG; Z.lor LP LW; RP; Z.lor LP LG].

(** The states the river-crossing search can reach from [RPCGW]. *)
Definition river_states : list short :=
  [RPCGW; PGRCW; GRPCW; PCGRW; PGWRC; CRPGW; WRPCG; PCWRG; CWRPG; PCGWR].

(** The node that holds the goal child of a run, with the address [new]
    gave it. *)
Definition goal_child (a : nat) (s act : short) (path : list short) : NodePtr :=
  mkPtr a (mkNode s act path).

(** All the values of a [short]. *)
Definition short_universe : list short :=
  map (fun n => Z.of_nat n - 32768) (seq 0 (Z.to_nat 65536)).

(** The values 0..255 of the low byte, where the encoded states live. *)
Definition bytes : list Z := map Z.of_nat (seq 0 256).

(** On a valid state a move code sets its own bits and clears those of the
    other bank, and the state stays valid. *)
Definition move_ok (a s : Z) : bool :=
  implb (valid_state s)
        (valid_state (BFSProblem.result s a) &&
         (BFSProblem.result s a =? Z.lor (Z.land s (Z.lnot (other_bank a))) a)).

(** ** Invariants of the search *)

(** Every queued pointer was allocated earlier, so its address is below
    the next one [new] hands out. *)
Definition fresh (st : bfs_state) : Prop :=
  Forall (fun q => (addr q < length (expanded st))%nat) (frontier st).

(** States of the universe not yet explored. *)
Definition unexplored (univ : list short) (st : bfs_state) : nat :=
  length (filter (fun s => negb (find_short (explored st) s)) univ).

(** Queued nodes whose state has been explored since they were queued. *)
Definition stale (st : bfs_state) : nat :=
  length (filter (fun q => find_short (explored st) (state (obj q)))
                 (frontier st)).

Section Invariants.

Variable p : Problem.

(** The node [childNode] builds below [node] for [a]. *)
Definition child_of (node : NodePtr) (a : short) : Node :=
  Node_new (result p (getState (obj node)) a) a (Some (obj node)).

(** What the range-[for] leaves behind when it runs to its end. *)
Record for_continue (node : NodePtr) (acts : list short)
    (st st' : bfs_state) (new : list NodePtr) : Prop := {
  fc_explored : explored st' = explored st;
  fc_fresh : fresh st';
  fc_frontier : frontier st' = frontier st ++ new;
  fc_expanded : forall q, In q (expanded st') ->
      In q (expanded st) \/ exists a, In a acts /\ obj q = child_of node a;
  fc_new : forall q, In q new ->
      exists a, In a acts /\ obj q = child_of node a /\
        ~ In (state (obj q)) (explored st) /\ state (obj q) <> goal p;
  fc_all : forall a, In a acts ->
      In (result p (state (obj node)) a) (explored st) \/
      exists q, In q new /\ state (obj q) = result p (state (obj node)) a
}.

(** What holds when the range-[for] takes the success exit: a child that
    is a goal was built, it sits in [expanded] with all the nodes that were
    deleted, and [solution] was called on it afterwards. *)
Record for_return (node : NodePtr) (acts : list short)
    (st st' : bfs_state) (r : returned) : Prop := {
  fr_explored : explored st' = explored st;
  fr_expanded : forall q, In q (expanded st') ->
      In q (expanded st) \/ exists a, In a acts /\ obj q = child_of node a;
  fr_child : exists a c, In a acts /\ r = ReadDeleted c /\
      obj c = child_of node a /\ In c (expanded st') /\
      result p (state (obj node)) a = goal p /\ ~ In (goal p) (explored st)
}.

(** [s] is reachable from the initial state by actions the problem offers. *)
Definition reach (s : short) : Prop :=
  exists acts, legal p (initial p) acts /\ exec p (initial p) acts = s.

(** The node [q] sits at depth [d]: its solution is the sentinel of the
    root followed by [d] legal actions that lead to its state. *)
Definition sound_at (d : nat) (q : NodePtr) : Prop :=
  exists acts, soln (obj q) = 0 :: acts /\ length acts = d /\
    legal p (initial p) acts /\ exec p (initial p) acts = state (obj q).

(** The frontier is a run [A] of nodes of depth [m] followed by a run [B]
    of nodes of depth [m+1]; everything within [m-1] actions of the initial
    state is explored, everything at [m] actions is explored or waits in
    [A]; the successors of explored states are explored or queued. *)
Record Inv (m : nat) (A B : list NodePtr) (st : bfs_state) : Prop := {
  inv_frontier : frontier st = A ++ B;
  inv_fresh : fresh st;
  inv_A : forall q, In q A -> sound_at m q;
  inv_B : forall q, In q B -> sound_at (S m) q;
  inv_root : In (initial p) (explored st) \/
             exists q, frontier st = [q] /\ state (obj q) = initial p;
  inv_closed : forall s a, In s (explored st) -> In a (actions p s) ->
      In (result p s a) (explored st) \/
      exists q, In q (frontier st) /\ state (obj q) = result p s a;
  inv_below : forall acts, legal p (initial p) acts ->
      (length acts < m)%nat -> In (exec p (initial p) acts) (explored st);
  inv_level : forall acts, legal p (initial p) acts -> length acts = m ->
      In (exec p (initial p) acts) (explored st) \/
      exists q, In q A /\ state (obj q) = exec p (initial p) acts;
  inv_nogoal : initial p <> goal p ->
      (forall q, In q (frontier st) -> state (obj q) <> goal p) /\
      ~ In (goal p) (explored st);
  inv_explored : forall s, In s (explored st) -> reach s;
  inv_expanded : forall q, In q (expanded st) -> reach (state (obj q))
}.

(** The two ways the loop ends: the frontier ran empty and the local
    [solution] is returned, or a child that is a goal was generated,
    deleted with every other node, and then asked for its solution; that
    child had been built with the sentinel followed by a shortest solving
    sequence. *)
Definition loop_post (sol0 : list short) (r : returned) (st' : bfs_state)
    : Prop :=
  (forall q, In q (expanded st') -> reach (state (obj q))) /\
  ((r = Deque sol0 /\
    (forall acts, legal p (initial p) acts ->
                  In (exec p (initial p) acts) (explored st')) /\
    (initial p <> goal p -> ~ In (goal p) (explored st')))
   \/
   (initial p <> goal p /\
    exists c acts, r = ReadDeleted c /\ In c (expanded st') /\
      soln (obj c) = 0 :: acts /\ solves p acts /\
      forall acts', solves p acts' -> (length acts <= length acts')%nat)).

End Invariants.

(** ** The rest of [main]: printing the solution *)

(** The [switch] of [main]: the line written for an action, if any (there
    is no [default] label). *)
Definition describe (action : short) : option string :=
  if action =? RP then Some "Peasant crosses right."%string
  else if action =? Z.lor RP RC then
    Some "Peasant and cabbage crosses right."%string
  else if action =? Z.lor RP RG then
    Some "Peasant and goat crosses right."%string
  else if action =? Z.lor RP RW then
    Some "Peasant and wolf crosses right."%string
  else if action =? LP then Some "Peasant crosses left."%string
  else if action =? Z.lor LP LC then
    Some "Peasant and cabbage crosses left."%string
  else if action =? Z.lor LP LG then
    Some "Peasant and goat crosses left."%string
  else if action =? Z.lor LP LW then
    Some "Peasant and wolf crosses left."%string
  else None.

(** The range-[for] of [main] over the solution: the lines written to
    [cout], in order. *)
Fixpoint print_solution (solution : list short) : list string :=
  match solution with
  | [] => []
  | action :: rest =>
      match describe action with
      | Some line => line :: print_solution rest
      | None => print_solution rest
      end
  end.

(** What [main] writes when the search it starts returns a deque; after
    the read of a deleted node the lines are not defined. *)
Definition main_output (fuel : nat) : option (option (list string)) :=
  match BFS fuel main_problem with
  | None => None
  | Some (Deque sol) => Some (Some (print_solution sol))
  | Some (ReadDeleted _) => Some None
  end.

(** ** The search without the pointer test *)

(** The range-[for] of [BFS] with the test on the frontier left out: a
    child is queued when its state is not explored. *)
Fixpoint for_actions_explored_only (p : Problem) (node : NodePtr)
    (acts : list short) (st : bfs_state) : flow :=
  match acts with
  | [] => Continue st
  | action :: rest =>
      let child := childNode p st node action in
      let st1 := mkState (frontier st) (expanded st ++ [child]) (explored st) in
      if negb (find_short (explored st1) (getState (obj child)))
      then
        if goal_test p (getState (obj child))
        then Return (call_solution (delete_all (expanded st1)) child) st1
        else for_actions_explored_only p node rest
               (mkState (frontier st1 ++ [child]) (expanded st1) (explored st1))
      else for_actions_explored_only p node rest st1
  end.

Fixpoint while_frontier_explored_only (fuel : nat) (p : Problem)
    (solution : list short) (st : bfs_state)
    : option (returned * bfs_state) :=
  match fuel with
  | O => None
  | S fuel' =>
      match frontier st with
      | [] => Some (Deque solution, st)
      | node :: rest =>
          match for_actions_explored_only p node
                  (actions p (getState (obj node)))
                  (mkState rest (expanded st)
                           (explored st ++ [getState (obj node)])) with
          | Return r st' => Some (r, st')
          | Continue st' => while_frontier_explored_only fuel' p solution st'
          end
      end
  end.

(** ** The rules of the puzzle, on the bit encoding *)

(** Bit [b] (one of [RW] .. [LP]) is set in [s]. *)
Definition on (s b : Z) : bool := negb (Z.land s b =? 0).

(** Everything the move [a] carries stands on the bank it leaves and not
    on the bank it goes to. *)
Definition possible (s a : Z) : bool :=
  (Z.land s (other_bank a) =? other_bank a) && (Z.land s a =? 0).

(** On neither bank is the goat with the cabbage or the wolf while the
    peasant is away. *)
Definition safe (s : Z) : bool :=
  implb (on s LG && (on s LC || on s LW)) (on s LP) &&
  implb (on s RG && (on s RC || on s RW)) (on s RP).

(** [P] holds of the [n] integers from [z] on. *)
Fixpoint all_from (n : nat) (z : Z) (P : Z -> bool) : bool :=
  match n with
  | O => true
  | S n' => P z && all_from n' (z + 1) P
  end.

(** What a move code does to a [short] state: it sets its own bits and
    clears the other bank's without wrapping, doing it twice changes
    nothing more, and the opposite move undoes a possible move. *)
Definition move_laws (a s : Z) : bool :=
  let r := BFSProblem.result s a in
  (r =? Z.lor (Z.land s (Z.lnot (other_bank a))) a) &&
  (BFSProblem.result r a =? r) &&
  implb (possible s a) (BFSProblem.result r (other_bank a) =? s).

(** What the table of [actions] offers in a state: only move codes that
    are possible there and lead to another state, safe and valid, one of
    whose offered moves leads back, unless that state is the all-left state
    [PCGWR]. *)
Definition offer_ok (s a : Z) : bool :=
  existsb (Z.eqb a) move_codes &&
  possible s a &&
  negb (BFSProblem.result s a =? s) &&
  safe (BFSProblem.result s a) &&
  valid_state (BFSProblem.result s a) &&
  existsb (Z.eqb (BFSProblem.result s a)) river_states &&
  ((BFSProblem.result s a =? PCGWR) ||
   (existsb (Z.eqb (other_bank a)) (BFSProblem.actions (BFSProblem.result s a))
    && (BFSProblem.result (BFSProblem.result s a) (other_bank a) =? s))).

(** A node's cached solution is the sentinel followed by legal actions
    that lead from the initial state to the node's state, and its action
    is the last entry of the solution. *)
Definition node_ok (p : Problem) (q : NodePtr) : Prop :=
  exists acts, soln (obj q) = 0 :: acts /\
    legal p (initial p) acts /\
    exec p (initial p) acts = state (obj q) /\
    action (obj q) = last (soln (obj q)) 0.

(** ** Basic facts *)

Lemma to_short_range z : short_range (to_short z).
Proof.
  unfold short_range, to_short.
  pose proof (Z.mod_pos_bound (z + 32768) 65536 ltac:(lia)). lia.
Qed.

Lemma to_short_id z : short_range z -> to_short z = z.
Proof.
  unfold short_range, to_short. intros H.
  rewrite Z.mod_small by lia. lia.
Qed.

Lemma find_short_In l v : find_short l v = true <-> In v l.
Proof.
  unfold find_short. rewrite existsb_exists. split.
  - intros (x & Hx & E). apply Z.eqb_eq in E. now subst.
  - intros H. exists v. split; [assumption | apply Z.eqb_refl].
Qed.

Lemma find_short_not_In l v : find_short l v = false <-> ~ In v l.
Proof.
  rewrite <- find_short_In. destruct (find_short l v); split; congruence.
Qed.

Lemma find_short_app l1 l2 v :
  find_short (l1 ++ l2) v = find_short l1 v || find_short l2 v.
Proof. unfold find_short. apply existsb_app. Qed.

Lemma exec_snoc p s acts a :
  exec p s (acts ++ [a]) = result p (exec p s acts) a.
Proof. unfold exec. now rewrite fold_left_app. Qed.

Lemma legal_snoc p acts : forall s a,
  legal p s (acts ++ [a]) <-> legal p s acts /\ In a (actions p (exec p s acts)).
Proof.
  induction acts as [|b acts IH]; intros s a; simpl.
  - tauto.
  - rewrite IH. unfold exec. simpl. tauto.
Qed.

Lemma snoc_cases {A : Type} (l : list A) :
  l = [] \/ exists l' a, l = l' ++ [a].
Proof.
  induction l as [|a l' _] using rev_ind; [now left | right; eauto].
Qed.

Lemma goal_test_true p g : goal_test p g = true <-> g = goal p.
Proof. unfold goal_test. rewrite Z.eqb_eq. split; congruence. Qed.

Lemma goal_test_false p g : goal_test p g = false <-> g <> goal p.
Proof. unfold goal_test. rewrite Z.eqb_neq. split; congruence. Qed.

(** Every state a legal sequence passes through stays in a closed universe. *)
Lemma legal_in_universe p univ :
  closed_universe p univ ->
  forall acts, legal p (initial p) acts -> In (exec p (initial p) acts) univ.
Proof.
  intros [Hi Hc] acts. induction acts as [|a acts IH] using rev_ind; intros HL.
  - exact Hi.
  - apply legal_snoc in HL. destruct HL as [HL Ha].
    rewrite exec_snoc. apply Hc; auto.
Qed.

(** ** The inner loop *)

Section Engine.

Variable p : Problem.

Lemma find_ptr_fresh st n :
  fresh st -> find_ptr (frontier st) (alloc st n) = false.
Proof.
  unfold fresh, find_ptr. intros H.
  induction H as [|q l Hq _ IH]; simpl; [reflexivity|].
  rewrite IH, orb_false_r. unfold ptr_eqb. simpl.
  apply Nat.eqb_neq. lia.
Qed.

Lemma fresh_alloc fr ex xs c :
  fresh (mkState fr ex xs) -> addr c = length ex ->
  fresh (mkState (fr ++ [c]) (ex ++ [c]) xs).
Proof.
  unfold fresh. simpl. intros H E. rewrite length_app. simpl.
  apply Forall_app. split.
  - eapply Forall_impl; [|exact H]. simpl. intros; lia.
  - constructor; [lia | constructor].
Qed.

Lemma fresh_grow fr ex xs c :
  fresh (mkState fr ex xs) -> fresh (mkState fr (ex ++ [c]) xs).
Proof.
  unfold fresh. simpl. intros H. rewrite length_app. simpl.
  eapply Forall_impl; [|exact H]. simpl. intros; lia.
Qed.

(** After the [delete] loop a node of [expanded] is not live any more. *)
Lemma call_solution_deleted c ex :
  In c ex -> call_solution (delete_all ex) c = ReadDeleted c.
Proof.
  intros H. unfold call_solution, delete_all.
  assert (E : existsb (Nat.eqb (addr c)) (map addr ex) = true).
  { apply existsb_exists. exists (addr c). split.
    - now apply in_map.
    - apply Nat.eqb_refl. }
  now rewrite E.
Qed.

Lemma for_actions_spec node acts : forall st,
  fresh st ->
  match for_actions p node acts st with
  | Continue st' => exists new, for_continue p node acts st st' new
  | Return r st' => for_return p node acts st st' r
  end.
Proof.
  induction acts as [|a rest IH]; intros st Hf.
  - simpl. exists []. split; auto; try (now intros ? []).
    now rewrite app_nil_r.
  - destruct st as [fr ex xs]. cbn [for_actions frontier expanded explored].
    set (c := childNode p (mkState fr ex xs) node a).
    assert (Hc : obj c = child_of p node a) by reflexivity.
    assert (Hs : state (obj c) = result p (state (obj node)) a) by reflexivity.
    assert (Hptr : find_ptr fr c = false)
      by (apply (find_ptr_fresh (mkState fr ex xs)); exact Hf).
    rewrite Hptr. cbn [negb andb]. unfold getState.
    destruct (find_short xs (state (obj c))) eqn:Hx; cbn [negb].
    + (* the child's state is explored: the child is dropped *)
      apply find_short_In in Hx.
      specialize (IH (mkState fr (ex ++ [c]) xs) (fresh_grow _ _ _ c Hf)).
      destruct (for_actions p node rest (mkState fr (ex ++ [c]) xs))
        as [sol st'|st'].
      * destruct IH as [E X (b & cc & Hb & Hr & Hcc & Hin & Hg & Hn)].
        simpl in *. split; auto.
        -- intros q Hq. destruct (X q Hq) as [H|(b' & H & H')].
           ++ apply in_app_or in H. destruct H as [H|[<-|[]]]; eauto 6 with datatypes.
           ++ right. eauto with datatypes.
        -- exists b, cc. repeat split; auto with datatypes.
      * destruct IH as (new & [E F Fr X N A]). simpl in *.
        exists new. split; auto.
        -- intros q Hq. destruct (X q Hq) as [H|(b' & H & H')].
           ++ apply in_app_or in H. destruct H as [H|[<-|[]]]; eauto 6 with datatypes.
           ++ right. eauto with datatypes.
        -- intros q Hq. destruct (N q Hq) as (b & Hb & H1 & H2 & H3).
           exists b. auto with datatypes.
        -- intros b [<-|Hb]; [left; now rewrite <- Hs | auto].
    + apply find_short_not_In in Hx.
      destruct (goal_test p (state (obj c))) eqn:Hg.
      * (* the child is a goal: early return *)
        apply goal_test_true in Hg.
        assert (Hin : In c (ex ++ [c])) by (apply in_or_app; right; now left).
        rewrite (call_solution_deleted c _ Hin).
        split; simpl; auto.
        -- intros q Hq. apply in_app_or in Hq.
           destruct Hq as [H|[<-|[]]]; eauto 6 with datatypes.
        -- exists a, c. repeat split; auto with datatypes. now rewrite <- Hg.
      * (* the child is queued *)
        apply goal_test_false in Hg.
        specialize (IH (mkState (fr ++ [c]) (ex ++ [c]) xs)
                       (fresh_alloc _ _ _ c Hf eq_refl)).
        destruct (for_actions p node rest (mkState (fr ++ [c]) (ex ++ [c]) xs))
          as [sol st'|st'].
        -- destruct IH as [E X (b & cc & Hb & Hr & Hcc & Hin & Hgb & Hn)].
           simpl in *. split; auto.
           ++ intros q Hq. destruct (X q Hq) as [H|(b' & H & H')].
              ** apply in_app_or in H. destruct H as [H|[<-|[]]]; eauto 6 with datatypes.
              ** right. eauto with datatypes.
           ++ exists b, cc. repeat split; auto with datatypes.
        -- destruct IH as (new & [E F Fr X N A]). simpl in *.
           exists (c :: new). split; auto.
           ++ now rewrite Fr, <- app_assoc.
           ++ intros q Hq. destruct (X q Hq) as [H|(b' & H & H')].
              ** apply in_app_or in H. destruct H as [H|[<-|[]]]; eauto 6 with datatypes.
              ** right. eauto with datatypes.
           ++ intros q [<-|Hq].
              ** exists a. auto with datatypes.
              ** destruct (N q Hq) as (b & Hb & H1 & H2 & H3).
                 exists b. auto with datatypes.
           ++ intros b [<-|Hb].
              ** right. exists c. auto with datatypes.
              ** destruct (A b Hb) as [H|(q & Hq & H)]; eauto 6 with datatypes.
Qed.

End Engine.

(** ** The loop invariant *)

Section Search.

Variable p : Problem.

Lemma sound_reach d q : sound_at p d q -> reach p (state (obj q)).
Proof. intros (acts & _ & _ & HL & HE). now exists acts. Qed.

Lemma child_sound d node q a :
  sound_at p d node -> In a (actions p (state (obj node))) ->
  obj q = child_of p node a -> sound_at p (S d) q.
Proof.
  intros (acts & Hs & Hlen & HL & HE) Ha Hq.
  exists (acts ++ [a]). rewrite Hq. unfold child_of, getState. simpl.
  unfold solution. rewrite Hs. repeat split.
  - rewrite length_app. simpl. lia.
  - apply legal_snoc. split; [assumption | now rewrite HE].
  - rewrite exec_snoc. now rewrite HE.
Qed.

Lemma Inv_init : Inv p 0 [mkPtr 0 (Node_root (initial p))] [] (BFS_init p).
Proof.
  assert (R : sound_at p 0 (mkPtr 0 (Node_root (initial p)))).
  { exists []. simpl. auto. }
  split; simpl.
  - reflexivity.
  - repeat constructor.
  - intros q [<-|[]]. exact R.
  - now intros q [].
  - right. eexists. split; reflexivity.
  - now intros s a [].
  - intros acts _ H. lia.
  - intros acts _ H. apply length_zero_iff_nil in H. subst acts.
    right. eexists. split; [left; reflexivity | reflexivity].
  - intros Hne. split; [|now intros []].
    intros q [<-|[]]. exact Hne.
  - now intros s [].
  - intros q [<-|[]]. exact (sound_reach _ _ R).
Qed.

(** When the run of depth [m] is used up, the run of depth [m+1] takes
    its place. *)
Lemma Inv_next_level m B st : Inv p m [] B st -> Inv p (S m) B [] st.
Proof.
  intros [Fr Fh IA IB Rt Cl Bl Lv Ng Ex Xp].
  assert (Bl' : forall acts, legal p (initial p) acts ->
      (length acts < S m)%nat -> In (exec p (initial p) acts) (explored st)).
  { intros acts HL Hlen.
    destruct (Nat.eq_dec (length acts) m) as [E|E].
    - destruct (Lv acts HL E) as [H|(q & [] & _)]. exact H.
    - apply Bl; [assumption | lia]. }
  split; auto.
  - now rewrite app_nil_r.
  - now intros q [].
  - intros acts HL Hlen.
    destruct (snoc_cases acts) as [->|(acts' & a & ->)]; [discriminate|].
    rewrite length_app in Hlen. simpl in Hlen.
    apply legal_snoc in HL. destruct HL as [HL Ha].
    rewrite exec_snoc.
    destruct (Cl _ _ (Bl' acts' HL ltac:(lia)) Ha) as [H|(q & Hq & H)]; auto.
    right. exists q. split; [|assumption]. now rewrite Fr in Hq.
Qed.

(** One iteration that runs to the end of its range-[for] keeps the
    invariant, with the new children at the back of the frontier. *)
Lemma Inv_step m node A B st st' :
  Inv p m (node :: A) B st ->
  loop_body p node (A ++ B) st = Continue st' ->
  explored st' = explored st ++ [state (obj node)] /\
  exists new, frontier st' = (A ++ B) ++ new /\
    (forall q, In q new -> ~ In (state (obj q)) (explored st')) /\
    Inv p m A (B ++ new) st'.
Proof.
  intros [Fr Fh IA IB Rt Cl Bl Lv Ng Ex Xp] Hbody.
  unfold loop_body, getState in Hbody.
  set (st1 := mkState (A ++ B) (expanded st) (explored st ++ [state (obj node)]))
    in Hbody.
  assert (Hf1 : fresh st1).
  { unfold fresh in *. rewrite Fr in Fh. simpl in *. now inversion Fh. }
  pose proof (for_actions_spec p node (actions p (state (obj node))) st1 Hf1)
    as Hspec.
  rewrite Hbody in Hspec. destruct Hspec as (new & [E F Fn X N Al]).
  simpl in E, Fn, X, N, Al.
  assert (Hnode : sound_at p m node) by (apply IA; now left).
  split; [exact E|]. exists new. split; [exact Fn|]. split.
  { intros q Hq. rewrite E. destruct (N q Hq) as (a & _ & _ & H & _).
    exact H. }
  split.
  - now rewrite Fn, app_assoc.
  - exact F.
  - intros q Hq. apply IA. now right.
  - intros q Hq. apply in_app_or in Hq. destruct Hq as [Hq|Hq].
    + now apply IB.
    + destruct (N q Hq) as (a & Ha & Hc & _).
      exact (child_sound m node q a Hnode Ha Hc).
  - left. rewrite E. apply in_or_app.
    destruct Rt as [H|(q & Hq & H)]; [now left|].
    right. left. rewrite Fr in Hq. simpl in Hq. congruence.
  - intros s a Hs Ha. rewrite E in *. apply in_app_or in Hs.
    destruct Hs as [Hs|[<-|[]]].
    + destruct (Cl s a Hs Ha) as [H|(q & Hq & H)].
      * left. apply in_or_app. now left.
      * rewrite Fr in Hq. destruct Hq as [<-|Hq].
        -- left. apply in_or_app. right. left. exact H.
        -- right. exists q. split; [|exact H].
           rewrite Fn. apply in_or_app. now left.
    + destruct (Al a Ha) as [H|(q & Hq & H)]; [now left|].
      right. exists q. split; [|exact H].
      rewrite Fn. apply in_or_app. now right.
  - intros acts HL Hlen. rewrite E. apply in_or_app. left. now apply Bl.
  - intros acts HL Hlen. rewrite E.
    destruct (Lv acts HL Hlen) as [H|(q & [<-|Hq] & H)].
    + left. apply in_or_app. now left.
    + left. apply in_or_app. right. left. exact H.
    + right. now exists q.
  - intros Hne. destruct (Ng Hne) as [Ng1 Ng2]. split.
    + intros q Hq. rewrite Fn in Hq. apply in_app_or in Hq.
      destruct Hq as [Hq|Hq].
      * apply Ng1. rewrite Fr. right. exact Hq.
      * destruct (N q Hq) as (a & _ & _ & _ & H). exact H.
    + rewrite E. intros H. apply in_app_or in H. destruct H as [H|[H|[]]].
      * now apply Ng2.
      * apply (Ng1 node); [rewrite Fr; now left | exact H].
  - intros s Hs. rewrite E in Hs. apply in_app_or in Hs.
    destruct Hs as [Hs|[<-|[]]]; [now apply Ex|].
    exact (sound_reach _ _ Hnode).
  - intros q Hq. destruct (X q Hq) as [H|(a & Ha & Hc)]; [now apply Xp|].
    exact (sound_reach _ _ (child_sound m node q a Hnode Ha Hc)).
Qed.

(** An iteration that takes the success exit calls [solution] on a deleted
    child; that child had been built with a shortest solution behind the
    sentinel. *)
Lemma Inv_return m node A B st r st' :
  Inv p m (node :: A) B st ->
  loop_body p node (A ++ B) st = Return r st' ->
  initial p <> goal p /\
  (forall q, In q (expanded st') -> reach p (state (obj q))) /\
  exists c acts, r = ReadDeleted c /\ In c (expanded st') /\
    soln (obj c) = 0 :: acts /\ solves p acts /\
    forall acts', solves p acts' -> (length acts <= length acts')%nat.
Proof.
  intros [Fr Fh IA IB Rt Cl Bl Lv Ng Ex Xp] Hbody.
  unfold loop_body, getState in Hbody.
  set (st1 := mkState (A ++ B) (expanded st) (explored st ++ [state (obj node)]))
    in Hbody.
  assert (Hf1 : fresh st1).
  { unfold fresh in *. rewrite Fr in Fh. simpl in *. now inversion Fh. }
  pose proof (for_actions_spec p node (actions p (state (obj node))) st1 Hf1)
    as Hspec.
  rewrite Hbody in Hspec.
  destruct Hspec as [E X (a & c & Ha & Hr & Hc & Hin & Hg & Hn)].
  simpl in E, X, Hn.
  assert (Hnode : sound_at p m node) by (apply IA; now left).
  assert (Hne : initial p <> goal p).
  { intros Heq. apply Hn. apply in_or_app.
    destruct Rt as [H|(q & Hq & H)].
    - left. now rewrite <- Heq.
    - right. left. rewrite Fr in Hq. simpl in Hq. congruence. }
  destruct (Ng Hne) as [Ng1 Ng2].
  split; [exact Hne|]. split.
  { intros q Hq. destruct (X q Hq) as [H|(b & Hb & Hq')]; [now apply Xp|].
    exact (sound_reach _ _ (child_sound m node q b Hnode Hb Hq')). }
  destruct Hnode as (acts & Hs & Hlen & HL & HE).
  exists c, (acts ++ [a]). split; [exact Hr|]. split; [exact Hin|].
  split; [rewrite Hc; unfold child_of; simpl; unfold solution; now rewrite Hs|].
  split.
  - split.
    + apply legal_snoc. split; [assumption | now rewrite HE].
    + apply goal_test_true. now rewrite exec_snoc, HE.
  - intros acts' [HL' Hg']. apply goal_test_true in Hg'.
    rewrite length_app. simpl.
    destruct (Nat.lt_ge_cases (length acts') (S m)) as [Hlt|Hge]; [|lia].
    exfalso. destruct (Nat.eq_dec (length acts') m) as [Em|Em].
    + destruct (Lv acts' HL' Em) as [H|(q & Hq & H)].
      * apply Ng2. now rewrite <- Hg'.
      * apply (Ng1 q); [rewrite Fr; apply in_or_app; now left | congruence].
    + apply Ng2. rewrite <- Hg'. apply Bl; [assumption | lia].
Qed.

(** With an empty frontier every reachable state has been explored. *)
Lemma Inv_exhausted m A B st :
  Inv p m A B st -> frontier st = [] ->
  forall acts, legal p (initial p) acts ->
               In (exec p (initial p) acts) (explored st).
Proof.
  intros [Fr Fh IA IB Rt Cl Bl Lv Ng Ex Xp] Hempty acts.
  induction acts as [|a acts IH] using rev_ind; intros HL.
  - destruct Rt as [H|(q & Hq & _)]; [exact H | congruence].
  - apply legal_snoc in HL. destruct HL as [HL Ha]. rewrite exec_snoc.
    destruct (Cl _ _ (IH HL) Ha) as [H|(q & Hq & _)]; [exact H|].
    rewrite Hempty in Hq. destruct Hq.
Qed.

End Search.

(** ** The outer loop: what it returns *)

Section Loop.

Variable p : Problem.

(** The front node of a non-empty frontier heads the run of least depth. *)
Lemma Inv_front m A B st node rest :
  Inv p m A B st -> frontier st = node :: rest ->
  exists m' A' B', Inv p m' (node :: A') B' st /\ rest = A' ++ B'.
Proof.
  intros HI Hfr. destruct A as [|n A'].
  - apply Inv_next_level in HI.
    pose proof (inv_frontier _ _ _ _ _ HI) as E.
    rewrite Hfr, app_nil_r in E. subst B.
    exists (S m), rest, []. split; [exact HI | now rewrite app_nil_r].
  - pose proof (inv_frontier _ _ _ _ _ HI) as E.
    rewrite Hfr in E. simpl in E. injection E as -> ->.
    exists m, A', B. split; [exact HI | reflexivity].
Qed.

Lemma while_frontier_post sol0 : forall fuel m A B st r st',
  Inv p m A B st ->
  while_frontier fuel p sol0 st = Some (r, st') ->
  loop_post p sol0 r st'.
Proof.
  induction fuel as [|fuel IH]; intros m A B st r st' HI Hrun;
    [discriminate|].
  simpl in Hrun. destruct (frontier st) as [|node rest] eqn:Hfr.
  - injection Hrun as <- <-. split; [exact (inv_expanded _ _ _ _ _ HI)|].
    left. split; [reflexivity|]. split.
    + exact (Inv_exhausted _ _ _ _ _ HI Hfr).
    + intros Hne. exact (proj2 (inv_nogoal _ _ _ _ _ HI Hne)).
  - destruct (Inv_front _ _ _ _ _ _ HI Hfr) as (m' & A' & B' & HI' & ->).
    destruct (loop_body p node (A' ++ B') st) as [sol st1|st1] eqn:Hbody.
    + injection Hrun as <- <-.
      destruct (Inv_return _ _ _ _ _ _ _ _ HI' Hbody) as (Hne & Hx & Hs).
      split; [exact Hx|]. right. split; assumption.
    + destruct (Inv_step _ _ _ _ _ _ _ HI' Hbody) as (_ & new & _ & _ & HI1).
      exact (IH _ _ _ _ _ _ HI1 Hrun).
Qed.

(** More fuel does not change a result. *)
Lemma while_frontier_more sol0 : forall fuel st r,
  while_frontier fuel p sol0 st = Some r ->
  forall k, while_frontier (fuel + k) p sol0 st = Some r.
Proof.
  induction fuel as [|fuel IH]; intros st r Hrun k; [discriminate|].
  simpl in *. destruct (frontier st) as [|node rest]; [exact Hrun|].
  destruct (loop_body p node rest st); [exact Hrun | now apply IH].
Qed.

Lemma while_frontier_det sol0 st f1 f2 r1 r2 :
  while_frontier f1 p sol0 st = Some r1 ->
  while_frontier f2 p sol0 st = Some r2 -> r1 = r2.
Proof.
  intros H1 H2.
  apply while_frontier_more with (k := f2) in H1.
  apply while_frontier_more with (k := f1) in H2.
  rewrite Nat.add_comm in H2. congruence.
Qed.

(** ** The outer loop: termination *)

Variable univ : list short.
Hypothesis Huniv : closed_universe p univ.

Lemma filter_length_lt {A : Type} (f g : A -> bool) (l : list A) (x : A) :
  (forall y, f y = true -> g y = true) ->
  In x l -> f x = false -> g x = true ->
  (length (filter f l) < length (filter g l))%nat.
Proof.
  intros Hfg Hin Hf Hg.
  assert (Hle : forall l', (length (filter f l') <= length (filter g l'))%nat).
  { induction l' as [|y l' IH]; simpl; [lia|].
    destruct (f y) eqn:E.
    - rewrite (Hfg y E). simpl. lia.
    - destruct (g y); simpl; lia. }
  induction l as [|y l IH]; [destruct Hin|].
  simpl. destruct Hin as [->|Hin].
  - rewrite Hf, Hg. simpl. specialize (Hle l). lia.
  - specialize (IH Hin). destruct (f y) eqn:E.
    + rewrite (Hfg y E). simpl. lia.
    + destruct (g y); simpl; lia.
Qed.

Lemma filter_none {A : Type} (f : A -> bool) (l : list A) :
  (forall x, In x l -> f x = false) -> filter f l = [].
Proof.
  induction l as [|y l IH]; intros H; simpl; [reflexivity|].
  rewrite (H y (or_introl eq_refl)). apply IH. intros x Hx. apply H. now right.
Qed.

Lemma find_short_snoc xs s x :
  find_short (xs ++ [s]) x = find_short xs x || (s =? x).
Proof. rewrite find_short_app. simpl. now rewrite orb_false_r. Qed.

(** Each iteration that continues either explores a new state of the
    universe, or retires a stale node without queueing another one. *)
Lemma measure_step m node A B st st' :
  Inv p m (node :: A) B st ->
  loop_body p node (A ++ B) st = Continue st' ->
  (unexplored univ st' < unexplored univ st)%nat \/
  (unexplored univ st' = unexplored univ st /\ (stale st' < stale st)%nat).
Proof.
  intros HI Hbody.
  destruct (Inv_step _ _ _ _ _ _ _ HI Hbody) as (E & new & Fn & Hnew & _).
  pose proof (inv_frontier _ _ _ _ _ HI) as Fr. simpl in Fr.
  assert (Hnode : In (state (obj node)) univ).
  { destruct (inv_A _ _ _ _ _ HI node (or_introl eq_refl))
      as (acts & _ & _ & HL & <-).
    now apply legal_in_universe. }
  unfold unexplored, stale. rewrite E, Fn, Fr.
  destruct (find_short (explored st) (state (obj node))) eqn:Hx.
  - right.
    assert (Hsame : forall x,
      find_short (explored st ++ [state (obj node)]) x
      = find_short (explored st) x).
    { intros x. rewrite find_short_snoc.
      destruct (Z.eqb_spec (state (obj node)) x) as [<-|_].
      - now rewrite Hx.
      - apply orb_false_r. }
    split.
    + f_equal. apply filter_ext. intros x. now rewrite Hsame.
    + rewrite filter_app, length_app. simpl. rewrite Hx. simpl.
      replace (filter _ new) with (@nil NodePtr).
      * rewrite (filter_ext _ (fun q => find_short (explored st) (state (obj q))))
          by (intros q; apply Hsame).
        simpl. lia.
      * symmetry. apply filter_none. intros q Hq.
        apply find_short_not_In. rewrite <- E. now apply Hnew.
  - left. apply filter_length_lt with (x := state (obj node)).
    + intros y Hy. apply negb_true_iff in Hy. apply negb_true_iff.
      rewrite find_short_snoc in Hy. now apply orb_false_iff in Hy.
    + exact Hnode.
    + apply negb_false_iff. rewrite find_short_snoc, Z.eqb_refl.
      apply orb_true_r.
    + now rewrite Hx.
Qed.

Lemma while_frontier_terminates sol0 : forall n1 n2 st m A B,
  Inv p m A B st -> unexplored univ st = n1 -> stale st = n2 ->
  exists fuel r, while_frontier fuel p sol0 st = Some r.
Proof.
  induction n1 as [n1 IH1] using lt_wf_ind.
  induction n2 as [n2 IH2] using lt_wf_ind.
  intros st m A B HI E1 E2.
  destruct (frontier st) as [|node rest] eqn:Hfr.
  - exists 1%nat. simpl. rewrite Hfr. eauto.
  - destruct (Inv_front _ _ _ _ _ _ HI Hfr) as (m' & A' & B' & HI' & ->).
    destruct (loop_body p node (A' ++ B') st) as [sol st1|st1] eqn:Hbody.
    + exists 1%nat. simpl. rewrite Hfr, Hbody. eauto.
    + destruct (Inv_step _ _ _ _ _ _ _ HI' Hbody) as (_ & new & _ & _ & HI1).
      assert (exists fuel r, while_frontier fuel p sol0 st1 = Some r)
        as (fuel & r & Hrun).
      { destruct (measure_step _ _ _ _ _ _ HI' Hbody) as [Hlt|[Heq Hlt]].
        - apply (IH1 (unexplored univ st1) ltac:(lia) (stale st1) st1 _ _ _ HI1);
            reflexivity.
        - apply (IH2 (stale st1) ltac:(lia) st1 _ _ _ HI1);
            [lia | reflexivity]. }
      exists (S fuel), r. simpl. now rewrite Hfr, Hbody.
Qed.

End Loop.

(** ** The engine as a whole *)

Lemma BFS_run_of_BFS fuel p r :
  BFS fuel p = Some r -> exists st, BFS_run fuel p = Some (r, st).
Proof.
  unfold BFS. destruct (BFS_run fuel p) as [[r' st]|]; simpl; [|discriminate].
  intros [= <-]. now exists st.
Qed.

Lemma BFS_run_det p f1 f2 r1 r2 :
  BFS_run f1 p = Some r1 -> BFS_run f2 p = Some r2 -> r1 = r2.
Proof. apply while_frontier_det. Qed.

(** The result of [BFS] does not depend on the fuel that was enough. *)
Lemma BFS_det p f1 f2 r1 r2 :
  BFS f1 p = Some r1 -> BFS f2 p = Some r2 -> r1 = r2.
Proof.
  intros H1 H2.
  apply BFS_run_of_BFS in H1. destruct H1 as (st1 & H1).
  apply BFS_run_of_BFS in H2. destruct H2 as (st2 & H2).
  pose proof (BFS_run_det _ _ _ _ _ H1 H2). congruence.
Qed.

Lemma BFS_run_post p fuel r st :
  BFS_run fuel p = Some (r, st) -> loop_post p (BFS_solution0 p) r st.
Proof. apply (while_frontier_post p _ fuel _ _ _ _ _ _ (Inv_init p)). Qed.

Lemma BFS_solution0_goal p :
  initial p = goal p -> BFS_solution0 p = [0].
Proof.
  intros E. unfold BFS_solution0, getState. simpl.
  assert (H : goal_test p (initial p) = true) by now apply goal_test_true.
  now rewrite H.
Qed.

Lemma BFS_solution0_other p :
  initial p <> goal p -> BFS_solution0 p = [].
Proof.
  intros E. unfold BFS_solution0, getState. simpl.
  assert (H : goal_test p (initial p) = false) by now apply goal_test_false.
  now rewrite H.
Qed.

(** The three ways a call of [BFS] ends: it returns the empty deque, and
    nothing solves the problem; it returns the root's [[0]], and the
    initial state is the goal; or it deletes a goal child, built with the
    sentinel followed by a solution of least length, and then calls
    [solution] on it. *)
Lemma BFS_correct p fuel r :
  BFS fuel p = Some r ->
  (r = Deque [] /\ forall acts, ~ solves p acts) \/
  (r = Deque [0] /\ initial p = goal p) \/
  (initial p <> goal p /\
   exists c acts, r = ReadDeleted c /\ soln (obj c) = 0 :: acts /\
     solves p acts /\
     forall acts', solves p acts' -> (length acts <= length acts')%nat).
Proof.
  intros H. apply BFS_run_of_BFS in H. destruct H as (st & H).
  apply BFS_run_post in H.
  destruct H as [_ [(-> & Hall & Hng)|(Hne & c & acts & -> & _ & Hs)]].
  - destruct (Z.eq_dec (initial p) (goal p)) as [E|E].
    + right. left. now rewrite (BFS_solution0_goal p E).
    + left. rewrite (BFS_solution0_other p E). split; [reflexivity|].
      intros acts [HL Hg]. apply goal_test_true in Hg.
      apply (Hng E). rewrite <- Hg. now apply Hall.
  - right. right. split; [exact Hne|]. now exists c, acts.
Qed.

(** On a finite reachable state space the loop of [BFS] ends. *)
Lemma BFS_terminates p univ :
  closed_universe p univ -> exists fuel r, BFS fuel p = Some r.
Proof.
  intros Hu.
  destruct (while_frontier_terminates p univ Hu (BFS_solution0 p)
              _ _ _ _ _ _ (Inv_init p) eq_refl eq_refl) as (fuel & [r st] & H).
  exists fuel, r. unfold BFS, BFS_run. now rewrite H.
Qed.

Lemma short_universe_In z : In z short_universe <-> short_range z.
Proof.
  unfold short_universe, short_range. rewrite in_map_iff. split.
  - intros (n & <- & Hn). apply in_seq in Hn. lia.
  - intros H. exists (Z.to_nat (z + 32768)). split; [lia|].
    apply in_seq. lia.
Qed.

Lemma well_typed_universe p :
  well_typed p -> closed_universe p short_universe.
Proof.
  intros [Hi Hr]. split.
  - now apply short_universe_In.
  - intros s a Hs Ha. apply short_universe_In.
    apply Hr; [now apply short_universe_In | exact Ha].
Qed.

(** The iterations counted by [BFS_after] are those of the loop. *)
Lemma BFS_after_while p sol0 : forall n st st',
  BFS_after n p st = Some st' ->
  forall k, while_frontier (n + k) p sol0 st = while_frontier k p sol0 st'.
Proof.
  induction n as [|n IH]; intros st st' H k.
  - now injection H as ->.
  - simpl in *. destruct (frontier st) as [|node rest]; [discriminate|].
    destruct (loop_body p node rest st); [discriminate | now apply IH].
Qed.

(** ** The river-crossing problem *)

Lemma BFSProblem_result_range s a :
  short_range s -> short_range (BFSProblem.result s a).
Proof.
  intros H. unfold BFSProblem.result.
  repeat match goal with
         | |- context [if ?c then _ else _] => destruct c
         end; auto using to_short_range.
Qed.

Lemma BFSProblem_well_typed i g :
  short_range i -> well_typed (BFSProblem.make i g).
Proof.
  intros H. split; [exact H|]. intros s a Hs _.
  now apply BFSProblem_result_range.
Qed.

(** An action that is none of the eight move codes falls through every
    branch of [result]. *)
Lemma BFSProblem_result_other s a :
  ~ In a move_codes -> BFSProblem.result s a = s.
Proof.
  intros H. unfold BFSProblem.result.
  repeat match goal with
         | |- context [if ?x =? ?y then _ else _] =>
             let E := fresh "E" in
             destruct (Z.eqb_spec x y) as [E|E];
             [exfalso; apply H; rewrite E; simpl; tauto|]
         end.
  reflexivity.
Qed.

Lemma bytes_forallb (P : Z -> bool) :
  forallb P bytes = true -> forall s, 0 <= s < 256 -> P s = true.
Proof.
  intros H s Hs. rewrite forallb_forall in H. apply H.
  unfold bytes. apply in_map_iff. exists (Z.to_nat s). split; [lia|].
  apply in_seq. lia.
Qed.

Lemma move_codes_ok a s :
  In a move_codes -> valid_state s = true ->
  valid_state (BFSProblem.result s a) = true /\
  BFSProblem.result s a = Z.lor (Z.land s (Z.lnot (other_bank a))) a.
Proof.
  intros Ha Hs.
  assert (Hb : 0 <= s < 256).
  { unfold valid_state in Hs. repeat (apply andb_prop in Hs; destruct Hs as [Hs ?]).
    lia. }
  assert (H : forallb (fun a => forallb (move_ok a) bytes) move_codes = true)
    by (vm_compute; reflexivity).
  rewrite forallb_forall in H. specialize (H a Ha).
  pose proof (bytes_forallb _ H s Hb) as Hm. unfold move_ok in Hm.
  rewrite Hs in Hm. simpl in Hm. apply andb_prop in Hm.
  destruct Hm as [H1 H2]. apply Z.eqb_eq in H2. auto.
Qed.

Lemma valid_state_result s a :
  valid_state s = true -> valid_state (BFSProblem.result s a) = true.
Proof.
  intros Hs.
  assert (D : {In a move_codes} + {~ In a move_codes})
    by (apply in_dec, Z.eq_dec).
  destruct D as [Ha|Ha].
  - now apply move_codes_ok.
  - now rewrite BFSProblem_result_other.
Qed.

(** Every state reachable from [RPCGW] is valid. *)
Lemma reach_valid g s :
  reach (BFSProblem.make RPCGW g) s -> valid_state s = true.
Proof.
  intros (acts & _ & <-). simpl.
  induction acts as [|a acts IH] using rev_ind.
  - reflexivity.
  - rewrite exec_snoc. simpl. now apply valid_state_result.
Qed.

Lemma main_moves_solve : solves main_problem main_moves.
Proof. split; [cbv; tauto | reflexivity]. Qed.

Lemma river_states_closed g :
  closed_universe (BFSProblem.make RPCGW g) river_states.
Proof.
  split; [now left|].
  intros s a Hs Ha. simpl in Ha.
  unfold river_states in Hs.
  repeat (destruct Hs as [<-|Hs];
          [vm_compute in Ha;
           repeat (destruct Ha as [<-|Ha]; [vm_compute; tauto|]);
           destruct Ha|]).
  destruct Hs.
Qed.

(** * The properties of the specification *)

(** C1: on the instance built by [main] the search should return a
    sequence of 7 actions.  The code returns no sequence: after ten
    iterations it builds the goal child (the 23rd node, at address 22, with
    the path of the sentinel and seven moves), deletes every node of
    [expanded], this child among them, and then calls [solution] on it;
    with no amount of fuel does the call of [BFS] return a deque. *)
Theorem C1_main_reads_deleted_child :
  BFS 10 main_problem
  = Some (ReadDeleted (goal_child 22 PCGWR (Z.lor LP LG) (0 :: main_moves))) /\
  length main_moves = 7%nat /\
  solves main_problem main_moves /\
  main_output 10 = Some None /\
  forall fuel sol, BFS fuel main_problem <> Some (Deque sol).
Proof.
  assert (E : BFS 10 main_problem
              = Some (ReadDeleted
                        (goal_child 22 PCGWR (Z.lor LP LG) (0 :: main_moves))))
    by (vm_compute; reflexivity).
  split; [exact E|]. split; [reflexivity|].
  split; [exact main_moves_solve|].
  split; [unfold main_output; now rewrite E|].
  intros fuel sol H. pose proof (BFS_det _ _ _ _ _ H E). discriminate.
Qed.

(** C2: the length of the sequence [BFS] returns should be the least
    number of actions that reach a goal.  On the river-crossing problem
    from [RPCGW] to [GRPCW], which two actions solve and no shorter
    sequence does, the code returns no sequence: it deletes the goal child
    and then calls [solution] on it. *)
Theorem C2_shortest_solution_is_deleted :
  BFS 2 (BFSProblem.make RPCGW GRPCW)
  = Some (ReadDeleted (goal_child 2 GRPCW RP [0; Z.lor LP LG; RP])) /\
  min_actions (BFSProblem.make RPCGW GRPCW) 2 /\
  forall fuel sol, BFS fuel (BFSProblem.make RPCGW GRPCW) <> Some (Deque sol).
Proof.
  assert (E : BFS 2 (BFSProblem.make RPCGW GRPCW)
              = Some (ReadDeleted (goal_child 2 GRPCW RP [0; Z.lor LP LG; RP])))
    by (vm_compute; reflexivity).
  split; [exact E|]. split.
  - split.
    + exists [Z.lor LP LG; RP]. split; [|reflexivity].
      split; [cbv; tauto | reflexivity].
    + intros acts Hs.
      destruct (BFS_correct _ _ _ E) as [[H _]|[[H _]|(_ & c & acts' & H & Hc & _ & Hmin)]];
        try discriminate H.
      injection H as <-. simpl in Hc. injection Hc as <-.
      exact (Hmin acts Hs).
  - intros fuel sol H. pose proof (BFS_det _ _ _ _ _ H E). discriminate.
Qed.

(** C3: for a solvable Problem [BFS] should return a sequence whose replay
    from the initial state ends in a goal state.  On the river-crossing
    problem from [RPCGW] to [PGRCW], solved by the single move of peasant
    and goat to the left, the code returns no sequence: it deletes the
    goal child and then calls [solution] on it. *)
Theorem C3_solvable_run_reads_deleted_child :
  well_typed (BFSProblem.make RPCGW PGRCW) /\
  solves (BFSProblem.make RPCGW PGRCW) [Z.lor LP LG] /\
  BFS 1 (BFSProblem.make RPCGW PGRCW)
  = Some (ReadDeleted (goal_child 1 PGRCW (Z.lor LP LG) [0; Z.lor LP LG])) /\
  forall fuel sol, BFS fuel (BFSProblem.make RPCGW PGRCW) <> Some (Deque sol).
Proof.
  assert (E : BFS 1 (BFSProblem.make RPCGW PGRCW)
              = Some (ReadDeleted
                        (goal_child 1 PGRCW (Z.lor LP LG) [0; Z.lor LP LG])))
    by (vm_compute; reflexivity).
  split; [apply BFSProblem_well_typed; unfold short_range, RPCGW; lia|].
  split; [split; [cbv; tauto | reflexivity]|].
  split; [exact E|].
  intros fuel sol H. pose proof (BFS_det _ _ _ _ _ H E). discriminate.
Qed.

(** C4 (as stated): when the initial state satisfies [goal_test], [BFS]
    returns an empty action sequence.  This fails: with initial and goal
    both [RPCGW] no run returns the empty sequence. *)
Lemma C4_trivial_success_is_not_empty :
  goal_test (BFSProblem.make RPCGW RPCGW)
            (initial (BFSProblem.make RPCGW RPCGW)) = true /\
  ~ exists fuel, BFS fuel (BFSProblem.make RPCGW RPCGW) = Some (Deque []).
Proof.
  split; [reflexivity|]. intros (fuel & H).
  assert (E : BFS 20 (BFSProblem.make RPCGW RPCGW) = Some (Deque [0]))
    by (vm_compute; reflexivity).
  pose proof (BFS_det _ _ _ _ _ H E). discriminate.
Qed.

(** C4 (amended): for every Problem over [short] states whose initial state
    already satisfies [goal_test], [BFS] returns the one-entry sequence that
    holds the root's sentinel action 0 (a solution of zero moves), and never
    the failure signal, which is the empty sequence. *)
Theorem C4_trivial_success_is_sentinel p :
  well_typed p -> goal_test p (initial p) = true ->
  (exists fuel, BFS fuel p = Some (Deque [0])) /\
  (forall fuel sol, BFS fuel p = Some sol ->
     sol = Deque [0] /\ sol <> Deque []).
Proof.
  intros Hwt Hg.
  assert (Hall : forall fuel sol, BFS fuel p = Some sol -> sol = Deque [0]).
  { intros fuel sol H. apply goal_test_true in Hg.
    destruct (BFS_correct _ _ _ H) as [[_ Hno]|[[-> _]|(Hne & _)]].
    - exfalso. apply (Hno []). split; [exact I | now apply goal_test_true].
    - reflexivity.
    - congruence. }
  split.
  - destruct (BFS_terminates p _ (well_typed_universe p Hwt)) as (fuel & r & H).
    exists fuel. now rewrite <- (Hall _ _ H).
  - intros fuel sol H. rewrite (Hall _ _ H). split; [reflexivity | discriminate].
Qed.

Lemma C4_witness :
  (exists fuel, BFS fuel (BFSProblem.make RPCGW RPCGW) = Some (Deque [0])) /\
  (forall fuel sol, BFS fuel (BFSProblem.make RPCGW RPCGW) = Some sol ->
     sol = Deque [0] /\ sol <> Deque []).
Proof.
  apply (C4_trivial_success_is_sentinel (BFSProblem.make RPCGW RPCGW)).
  - apply BFSProblem_well_typed. unfold short_range, RPCGW. lia.
  - reflexivity.
Defined.

(** C5: a child is queued only if its state is neither explored nor the
    state of a queued node, so no state is expanded twice.  The code tests
    the frontier for the child's pointer, which is fresh, so the test never
    finds it.  On the instance of [main]: after six iterations the frontier
    holds the states [WRPCG; PCWRG] and [PCWRG] is not explored; the seventh
    iteration expands [WRPCG] and queues a second node of state [PCWRG]; at
    the return, [actions] has been invoked on [PCWRG] twice. *)
Theorem C5_state_queued_and_expanded_twice :
  option_map (fun st => (map (fun q => state (obj q)) (frontier st), explored st))
             (BFS_after 6 main_problem (BFS_init main_problem))
  = Some ([WRPCG; PCWRG], [RPCGW; PGRCW; GRPCW; PCGRW; PGWRC; CRPGW]) /\
  option_map (fun st => map (fun q => state (obj q)) (frontier st))
             (BFS_after 7 main_problem (BFS_init main_problem))
  = Some [PCWRG; PCWRG] /\
  option_map (fun r => explored (snd r)) (BFS_run 10 main_problem)
  = Some [RPCGW; PGRCW; GRPCW; PCGRW; PGWRC; CRPGW; WRPCG; PCWRG; PCWRG; CWRPG] /\
  option_map (fun r => count_occ Z.eq_dec (explored (snd r)) PCWRG)
             (BFS_run 10 main_problem)
  = Some 2%nat.
Proof. repeat split; vm_compute; reflexivity. Qed.

(** C6: for every Problem whose goal is unreachable from the initial state
    and whose reachable state space is finite, [BFS] terminates and returns
    the failure indicator (the empty sequence), which differs from what it
    returns when the initial state is the goal (the sequence [[0]]). *)
Theorem C6_unsolvable_returns_failure p univ :
  closed_universe p univ -> (forall acts, ~ solves p acts) ->
  (exists fuel, BFS fuel p = Some (Deque [])) /\
  (forall fuel sol, BFS fuel p = Some sol -> sol = Deque []) /\
  (forall q fuel sol, goal_test q (initial q) = true ->
     BFS fuel q = Some sol -> sol <> Deque []).
Proof.
  intros Hu Hno.
  assert (Hall : forall fuel sol, BFS fuel p = Some sol -> sol = Deque []).
  { intros fuel sol H.
    destruct (BFS_correct _ _ _ H)
      as [[-> _]|[[_ E]|(_ & c & acts & _ & _ & Hs & _)]].
    - reflexivity.
    - destruct (Hno []). split; [exact I | now apply goal_test_true].
    - destruct (Hno acts Hs). }
  split; [|split].
  - destruct (BFS_terminates p univ Hu) as (fuel & r & H).
    exists fuel. now rewrite <- (Hall _ _ H).
  - exact Hall.
  - intros q fuel sol Hg H.
    destruct (BFS_correct _ _ _ H) as [[_ Hq]|[[-> _]|(_ & c & acts & -> & _)]];
      [|discriminate|discriminate].
    destruct (Hq [] (conj I Hg)).
Qed.

Lemma C6_witness :
  (exists fuel, BFS fuel (BFSProblem.make RPCGW 0) = Some (Deque [])) /\
  (forall fuel sol, BFS fuel (BFSProblem.make RPCGW 0) = Some sol ->
     sol = Deque []) /\
  (forall q fuel sol, goal_test q (initial q) = true ->
     BFS fuel q = Some sol -> sol <> Deque []).
Proof.
  apply (C6_unsolvable_returns_failure (BFSProblem.make RPCGW 0) river_states).
  - apply river_states_closed.
  - intros acts [HL Hg]. apply goal_test_true in Hg.
    pose proof (legal_in_universe _ _ (river_states_closed 0) acts HL) as Hin.
    rewrite Hg in Hin. vm_compute in Hin.
    repeat (destruct Hin as [Hin|Hin]; [discriminate Hin|]). exact Hin.
Defined.

(** C7: the node constructed from (s, a, p) has solution path p's solution
    path with a appended; a node constructed with no parent has the path
    seeded with just its action, the sentinel 0 for the root; so a node
    [d] constructor calls below the root has a solution of [d+1] entries. *)
Theorem C7_node_solution_path :
  (forall s a q, solution (Node_new s a (Some q)) = solution q ++ [a]) /\
  (forall s a, solution (Node_new s a None) = [a]) /\
  (forall s, solution (Node_root s) = [0]) /\
  (forall prob st parent a,
     solution (obj (childNode prob st parent a)) = solution (obj parent) ++ [a]) /\
  (forall s steps,
     length (solution (descend (Node_root s) steps)) = S (length steps)).
Proof.
  repeat split.
  intros s steps. induction steps as [|[s' a] steps IH] using rev_ind.
  - reflexivity.
  - unfold descend in *. rewrite fold_left_app. simpl. unfold solution in *.
    simpl. rewrite !length_app, IH. simpl. lia.
Qed.

(** C8: [actions] returns the empty sequence for every state without a
    branch of its own, in particular for the goal state [PCGWR]; for the
    nine listed states it returns the actions in the order of the chain. *)
Theorem C8_actions_table :
  (forall s, ~ In s listed_states -> BFSProblem.actions s = []) /\
  BFSProblem.actions PCGWR = [] /\
  BFSProblem.actions RPCGW = [Z.lor LP LG] /\
  BFSProblem.actions PGRCW = [RP; Z.lor RP RG] /\
  BFSProblem.actions PCGRW = [Z.lor RP RC; Z.lor RP RG] /\
  BFSProblem.actions CRPGW = [Z.lor LP LG; Z.lor LP LW] /\
  BFSProblem.actions PCWRG = [Z.lor RP RC; Z.lor RP RW; RP] /\
  BFSProblem.actions WRPCG = [Z.lor LP LC; Z.lor LP LG] /\
  BFSProblem.actions CWRPG = [LP; Z.lor LP LG] /\
  BFSProblem.actions GRPCW = [LP; Z.lor LP LC; Z.lor LP LW] /\
  BFSProblem.actions PGWRC = [Z.lor RP RG; Z.lor RP RW].
Proof.
  split; [|repeat split; reflexivity].
  intros s H. unfold BFSProblem.actions.
  repeat match goal with
         | |- context [if ?x =? ?y then _ else _] =>
             let E := fresh "E" in
             destruct (Z.eqb_spec x y) as [E|E];
             [exfalso; apply H; rewrite E; simpl; tauto|]
         end.
  reflexivity.
Qed.

Lemma C8_witness : BFSProblem.actions 0 = [].
Proof.
  apply (proj1 C8_actions_table 0).
  vm_compute. intros H.
  repeat (destruct H as [H|H]; [discriminate H|]). exact H.
Defined.

(** C9: for every state s and every action a that is none of the eight
    move codes, [result s a] is s, unchanged; in particular
    [result s 0 = s], so the sentinel is a no-op when a returned solution
    is replayed. *)
Theorem C9_result_ignores_other_actions :
  (forall s a, ~ In a move_codes -> BFSProblem.result s a = s) /\
  (forall s, BFSProblem.result s 0 = s) /\
  (forall s acts, exec (BFSProblem.make s 0) s (0 :: acts)
                  = exec (BFSProblem.make s 0) s acts).
Proof.
  split; [|split].
  - intros s a. apply BFSProblem_result_other.
  - intros s. reflexivity.
  - intros s acts. reflexivity.
Qed.

Lemma C9_witness : BFSProblem.result RPCGW 7 = RPCGW.
Proof.
  apply (proj1 C9_result_ignores_other_actions RPCGW 7).
  vm_compute. intros H.
  repeat (destruct H as [H|H]; [discriminate H|]). exact H.
Defined.

(** C10: every state generated during a search started from [RPCGW] has,
    for each of the four entities, exactly one of its two bank bits set;
    the initial state has, and on such a state each of the eight move codes
    sets its own bits and clears the bits of the other bank, which keeps
    the property. *)
Theorem C10_generated_states_valid :
  valid_state RPCGW = true /\
  (forall s a, valid_state s = true -> In a move_codes ->
     BFSProblem.result s a = Z.lor (Z.land s (Z.lnot (other_bank a))) a) /\
  (forall s a, valid_state s = true ->
     valid_state (BFSProblem.result s a) = true) /\
  (forall g fuel sol st,
     BFS_run fuel (BFSProblem.make RPCGW g) = Some (sol, st) ->
     forall q, In q (expanded st) -> valid_state (state (obj q)) = true).
Proof.
  split; [reflexivity|]. split; [|split].
  - intros s a Hs Ha. now apply move_codes_ok.
  - intros s a. apply valid_state_result.
  - intros g fuel sol st H q Hq.
    apply BFS_run_post in H. destruct H as [Hx _].
    exact (reach_valid g _ (Hx q Hq)).
Qed.

Lemma C10_witness :
  forallb (fun q => valid_state (state (obj q)))
    (match BFS_run 10 main_problem with
     | Some (_, st) => expanded st
     | None => []
     end) = true.
Proof.
  apply forallb_forall. intros q Hq.
  destruct (BFS_run 10 main_problem) as [[sol st]|] eqn:E; [|destruct Hq].
  exact (proj2 (proj2 (proj2 C10_generated_states_valid))
           PCGWR 10%nat sol st E q Hq).
Defined.

(** * Further properties of the code *)

(** ** [BFSProblem::result] on all [short] states *)

Lemma all_from_spec n : forall z P,
  all_from n z P = true ->
  forall x, z <= x < z + Z.of_nat n -> P x = true.
Proof.
  induction n as [|n IH]; intros z P H x Hx.
  - lia.
  - cbn [all_from] in H. apply andb_prop in H. destruct H as [H0 H1].
    destruct (Z.eq_dec x z) as [->|Hne]; [exact H0|].
    apply (IH (z + 1) P H1). lia.
Qed.

Lemma move_laws_all a s :
  In a move_codes -> short_range s -> move_laws a s = true.
Proof.
  intros Ha Hs.
  assert (H : forallb (fun a => all_from (Z.to_nat 65536) (-32768) (move_laws a))
                      move_codes = true) by (vm_compute; reflexivity).
  rewrite forallb_forall in H. apply (all_from_spec _ _ _ (H a Ha)).
  unfold short_range in Hs. lia.
Qed.

Lemma move_laws_inv a s :
  move_laws a s = true ->
  BFSProblem.result s a = Z.lor (Z.land s (Z.lnot (other_bank a))) a /\
  BFSProblem.result (BFSProblem.result s a) a = BFSProblem.result s a /\
  (possible s a = true ->
   BFSProblem.result (BFSProblem.result s a) (other_bank a) = s).
Proof.
  unfold move_laws. cbv zeta. intros H.
  apply andb_prop in H. destruct H as [H H3].
  apply andb_prop in H. destruct H as [H1 H2].
  apply Z.eqb_eq in H1. apply Z.eqb_eq in H2.
  split; [exact H1|]. split; [exact H2|].
  intros Hp. rewrite Hp in H3. simpl in H3. now apply Z.eqb_eq in H3.
Qed.

Lemma other_bank_move_code a : In a move_codes -> In (other_bank a) move_codes.
Proof.
  intros H. unfold move_codes in H.
  repeat (destruct H as [<-|H]; [vm_compute; tauto|]). destruct H.
Qed.

Lemma not_move_code_0 : ~ In 0 move_codes.
Proof.
  vm_compute. intros H.
  repeat (destruct H as [H|H]; [discriminate H|]). exact H.
Qed.

(** X1: on every [short] state a move code sets its own bits and clears
    those of the other bank, and the conversion of the [int] result back
    to [short] never wraps; every other bit of the state is kept. *)
Theorem result_sets_and_clears s a :
  short_range s -> In a move_codes ->
  BFSProblem.result s a = Z.lor (Z.land s (Z.lnot (other_bank a))) a /\
  forall n, 0 <= n ->
    Z.testbit (BFSProblem.result s a) n
    = (Z.testbit s n && negb (Z.testbit (other_bank a) n)) || Z.testbit a n.
Proof.
  intros Hs Ha.
  destruct (move_laws_inv a s (move_laws_all a s Ha Hs)) as (E & _).
  split; [exact E|]. intros n Hn.
  rewrite E, Z.lor_spec, Z.land_spec, Z.lnot_spec by exact Hn. reflexivity.
Qed.

Lemma result_sets_and_clears_witness :
  BFSProblem.result (-1) LP = Z.lor (Z.land (-1) (Z.lnot (other_bank LP))) LP /\
  forall n, 0 <= n ->
    Z.testbit (BFSProblem.result (-1) LP) n
    = (Z.testbit (-1) n && negb (Z.testbit (other_bank LP) n)) || Z.testbit LP n.
Proof.
  apply (result_sets_and_clears (-1) LP).
  - unfold short_range. lia.
  - simpl. tauto.
Defined.

(** X2: applying the same action twice to a [short] state gives what
    applying it once gives, for every action. *)
Theorem result_idempotent s a :
  short_range s ->
  BFSProblem.result (BFSProblem.result s a) a = BFSProblem.result s a.
Proof.
  intros Hs.
  destruct (in_dec Z.eq_dec a move_codes) as [Ha|Ha].
  - exact (proj1 (proj2 (move_laws_inv a s (move_laws_all a s Ha Hs)))).
  - now rewrite !BFSProblem_result_other.
Qed.

Lemma result_idempotent_witness :
  BFSProblem.result (BFSProblem.result PCGRW (Z.lor LP LW)) (Z.lor LP LW)
  = BFSProblem.result PCGRW (Z.lor LP LW).
Proof.
  apply (result_idempotent PCGRW (Z.lor LP LW)).
  unfold short_range, PCGRW. lia.
Defined.

(** X3: when everything a move code carries stands on the bank it leaves
    and not on the other one, the opposite move code (the same bits on the
    other bank) brings the [short] state back. *)
Theorem result_round_trip s a :
  short_range s -> In a move_codes -> possible s a = true ->
  In (other_bank a) move_codes /\
  BFSProblem.result (BFSProblem.result s a) (other_bank a) = s.
Proof.
  intros Hs Ha Hp. split; [now apply other_bank_move_code|].
  exact (proj2 (proj2 (move_laws_inv a s (move_laws_all a s Ha Hs))) Hp).
Qed.

Lemma result_round_trip_witness :
  In (other_bank (Z.lor LP LG)) move_codes /\
  BFSProblem.result (BFSProblem.result RPCGW (Z.lor LP LG))
                    (other_bank (Z.lor LP LG)) = RPCGW.
Proof.
  apply (result_round_trip RPCGW (Z.lor LP LG)).
  - unfold short_range, RPCGW. lia.
  - simpl. tauto.
  - reflexivity.
Defined.

(** ** The table of [BFSProblem::actions] *)

Lemma existsb_eqb_In x l : existsb (Z.eqb x) l = true <-> In x l.
Proof.
  rewrite existsb_exists. split.
  - intros (y & Hy & E). apply Z.eqb_eq in E. now subst.
  - intros H. exists x. split; [exact H | apply Z.eqb_refl].
Qed.

(** Case analysis along the chain of [actions]: one case per listed state
    and per action offered there. *)
Ltac table_cases H :=
  repeat match type of H with
         | In _ (if ?x =? ?y then _ else _) =>
             let E := fresh "E" in
             destruct (Z.eqb_spec x y) as [E|E];
             [ subst x; vm_compute in H;
               repeat (destruct H as [<-|H]; [vm_compute; reflexivity|]);
               destruct H
             | ]
         end.

Lemma offer_ok_all s a : In a (BFSProblem.actions s) -> offer_ok s a = true.
Proof.
  intros H. unfold BFSProblem.actions in H. table_cases H. destruct H.
Qed.

Lemma offer_ok_inv s a :
  offer_ok s a = true ->
  In a move_codes /\ possible s a = true /\ BFSProblem.result s a <> s /\
  safe (BFSProblem.result s a) = true /\
  valid_state (BFSProblem.result s a) = true /\
  In (BFSProblem.result s a) river_states /\
  (BFSProblem.result s a <> PCGWR ->
   In (other_bank a) (BFSProblem.actions (BFSProblem.result s a)) /\
   BFSProblem.result (BFSProblem.result s a) (other_bank a) = s).
Proof.
  unfold offer_ok. intros H.
  apply andb_prop in H. destruct H as [H K].
  apply andb_prop in H. destruct H as [H C6].
  apply andb_prop in H. destruct H as [H C5].
  apply andb_prop in H. destruct H as [H C4].
  apply andb_prop in H. destruct H as [H C3].
  apply andb_prop in H. destruct H as [C1 C2].
  apply existsb_eqb_In in C1. apply existsb_eqb_In in C6.
  apply negb_true_iff, Z.eqb_neq in C3.
  repeat (split; [assumption|]).
  intros Hne. apply orb_prop in K. destruct K as [K|K].
  - apply Z.eqb_eq in K. contradiction.
  - apply andb_prop in K. destruct K as [Ka Kb].
    apply existsb_eqb_In in Ka. apply Z.eqb_eq in Kb. now split.
Qed.

(** X4: every action [actions] offers in a state is one of the eight move
    codes, carries only what stands on the peasant's bank (so it changes
    the state), and leads to a state in which nothing is eaten and every
    entity is on exactly one bank. *)
Theorem actions_offer_possible_safe_moves s a :
  In a (BFSProblem.actions s) ->
  In a move_codes /\ possible s a = true /\ BFSProblem.result s a <> s /\
  safe (BFSProblem.result s a) = true /\
  valid_state (BFSProblem.result s a) = true.
Proof.
  intros H.
  destruct (offer_ok_inv s a (offer_ok_all s a H)) as (H1 & H2 & H3 & H4 & H5 & _).
  repeat split; assumption.
Qed.

Lemma actions_offer_possible_safe_moves_witness :
  In RP move_codes /\ possible PCWRG RP = true /\
  BFSProblem.result PCWRG RP <> PCWRG /\
  safe (BFSProblem.result PCWRG RP) = true /\
  valid_state (BFSProblem.result PCWRG RP) = true.
Proof.
  apply (actions_offer_possible_safe_moves PCWRG RP).
  vm_compute. tauto.
Defined.

(** X5: in each of the nine listed states the table is complete: every
    move code that is possible there and leads to a safe state is offered.
    (The all-left state [PCGWR] has no branch: there the possible and safe
    move of peasant and goat to the right is not offered.) *)
Theorem actions_complete_on_listed_states :
  (forall s a, In s listed_states -> In a move_codes ->
     possible s a = true -> safe (BFSProblem.result s a) = true ->
     In a (BFSProblem.actions s)) /\
  (possible PCGWR (Z.lor RP RG) = true /\
   safe (BFSProblem.result PCGWR (Z.lor RP RG)) = true /\
   ~ In (Z.lor RP RG) (BFSProblem.actions PCGWR)).
Proof.
  split.
  - intros s a Hs Ha Hp Hf.
    assert (H : forallb (fun s => forallb (fun a =>
                  implb (possible s a && safe (BFSProblem.result s a))
                        (existsb (Z.eqb a) (BFSProblem.actions s)))
                  move_codes) listed_states = true)
      by (vm_compute; reflexivity).
    rewrite forallb_forall in H. specialize (H s Hs).
    rewrite forallb_forall in H. specialize (H a Ha).
    rewrite Hp, Hf in H. simpl in H. now apply existsb_eqb_In in H.
  - repeat split. intros [].
Qed.

Lemma actions_complete_on_listed_states_witness :
  In RP (BFSProblem.actions PCWRG).
Proof.
  apply (proj1 actions_complete_on_listed_states PCWRG RP).
  - vm_compute. tauto.
  - vm_compute. tauto.
  - reflexivity.
  - reflexivity.
Defined.

(** X6: every offered move can be taken back: unless it leads to the
    all-left state [PCGWR], the opposite move code is offered in the state
    it leads to, and it leads back to the state it came from. *)
Theorem actions_reversible s a :
  In a (BFSProblem.actions s) -> BFSProblem.result s a <> PCGWR ->
  In (other_bank a) (BFSProblem.actions (BFSProblem.result s a)) /\
  BFSProblem.result (BFSProblem.result s a) (other_bank a) = s.
Proof.
  intros H Hne.
  destruct (offer_ok_inv s a (offer_ok_all s a H)) as (_ & _ & _ & _ & _ & _ & K).
  exact (K Hne).
Qed.

Lemma actions_reversible_witness :
  In (other_bank (Z.lor LP LW))
     (BFSProblem.actions (BFSProblem.result GRPCW (Z.lor LP LW))) /\
  BFSProblem.result (BFSProblem.result GRPCW (Z.lor LP LW))
                    (other_bank (Z.lor LP LW)) = GRPCW.
Proof.
  apply (actions_reversible GRPCW (Z.lor LP LW)).
  - vm_compute. tauto.
  - vm_compute. discriminate.
Defined.

Lemma reach_river i g s :
  reach (BFSProblem.make i g) s -> s = i \/ In s river_states.
Proof.
  intros (acts & HL & <-).
  destruct (snoc_cases acts) as [->|(acts' & a & ->)]; [now left|].
  right. apply legal_snoc in HL. destruct HL as [_ Ha].
  rewrite exec_snoc. simpl in *.
  exact (proj1 (proj2 (proj2 (proj2 (proj2 (proj2
           (offer_ok_inv _ _ (offer_ok_all _ _ Ha)))))))).
Qed.

(** X7: whatever the initial state, every other state the offered actions
    lead to is one of ten states; from [RPCGW] exactly these ten states
    can be reached, the goal [PCGWR] of [main] among them. *)
Theorem reachable_states :
  (forall i g s, reach (BFSProblem.make i g) s -> s = i \/ In s river_states) /\
  (forall g s, reach (BFSProblem.make RPCGW g) s <-> In s river_states).
Proof.
  split; [exact reach_river|].
  intros g s. split.
  - intros H. destruct (reach_river _ _ _ H) as [->|H']; [now left | exact H'].
  - intros H. unfold river_states in H.
    destruct H as [<-|H]; [exists []; split; [exact I | reflexivity]|].
    destruct H as [<-|H];
      [exists (firstn 1 main_moves); split; [cbv; tauto | reflexivity]|].
    destruct H as [<-|H];
      [exists (firstn 2 main_moves); split; [cbv; tauto | reflexivity]|].
    destruct H as [<-|H];
      [exists (firstn 3 main_moves); split; [cbv; tauto | reflexivity]|].
    destruct H as [<-|H];
      [exists [Z.lor LP LG; RP; Z.lor LP LW]; split; [cbv; tauto | reflexivity]|].
    destruct H as [<-|H];
      [exists (firstn 4 main_moves); split; [cbv; tauto | reflexivity]|].
    destruct H as [<-|H];
      [exists [Z.lor LP LG; RP; Z.lor LP LW; Z.lor RP RG];
       split; [cbv; tauto | reflexivity]|].
    destruct H as [<-|H];
      [exists (firstn 5 main_moves); split; [cbv; tauto | reflexivity]|].
    destruct H as [<-|H];
      [exists (firstn 6 main_moves); split; [cbv; tauto | reflexivity]|].
    destruct H as [<-|H];
      [exists main_moves; split; [cbv; tauto | reflexivity]|].
    destruct H.
Qed.

(** X8: a search for a goal that is neither the initial state nor one of
    the ten states the table leads to returns the empty deque; this is
    what the defaulted goal 0 of the constructor gives for every initial
    state but 0. *)
Theorem BFS_fails_outside_river_states i g :
  short_range i -> g <> i -> ~ In g river_states ->
  (exists fuel, BFS fuel (BFSProblem.make i g) = Some (Deque [])) /\
  (forall fuel sol, BFS fuel (BFSProblem.make i g) = Some sol ->
     sol = Deque []).
Proof.
  intros Hi Hne Hout.
  assert (Hno : forall acts, ~ solves (BFSProblem.make i g) acts).
  { intros acts [HL Hg]. apply goal_test_true in Hg. simpl in Hg.
    destruct (reach_river i g g) as [E|E]; [|contradiction|contradiction].
    exists acts. split; [exact HL | exact Hg]. }
  assert (Hall : forall fuel sol,
             BFS fuel (BFSProblem.make i g) = Some sol -> sol = Deque []).
  { intros fuel sol H.
    destruct (BFS_correct _ _ _ H)
      as [[-> _]|[[_ E]|(_ & c & acts & _ & _ & Hs & _)]].
    - reflexivity.
    - simpl in E. congruence.
    - destruct (Hno acts Hs). }
  split; [|exact Hall].
  destruct (BFS_terminates _ _
              (well_typed_universe _ (BFSProblem_well_typed i g Hi)))
    as (fuel & r & H).
  exists fuel. now rewrite <- (Hall _ _ H).
Qed.

Lemma BFS_fails_outside_river_states_witness :
  (exists fuel, BFS fuel (BFSProblem.make PGRCW 0) = Some (Deque [])) /\
  (forall fuel sol, BFS fuel (BFSProblem.make PGRCW 0) = Some sol ->
     sol = Deque []).
Proof.
  apply (BFS_fails_outside_river_states PGRCW 0).
  - unfold short_range, PGRCW. lia.
  - discriminate.
  - vm_compute. intros H.
    repeat (destruct H as [H|H]; [discriminate H|]). exact H.
Defined.

(** ** The search engine: pointers, nodes and explored states *)

Section Trace.

Variable p : Problem.

Lemma fresh_pop node rest ex xs xs' :
  fresh (mkState (node :: rest) ex xs) -> fresh (mkState rest ex xs').
Proof. unfold fresh. simpl. intros H. now inversion H. Qed.

Lemma for_actions_explored_only_eq node acts : forall st,
  fresh st ->
  for_actions p node acts st = for_actions_explored_only p node acts st.
Proof.
  induction acts as [|a rest IH]; intros st Hf; [reflexivity|].
  destruct st as [fr ex xs].
  cbn [for_actions for_actions_explored_only frontier expanded explored].
  set (c := childNode p (mkState fr ex xs) node a).
  assert (Hptr : find_ptr fr c = false)
    by (apply (find_ptr_fresh (mkState fr ex xs)); exact Hf).
  rewrite Hptr. cbn [negb andb].
  destruct (negb (find_short xs (getState (obj c)))).
  - destruct (goal_test p (getState (obj c))); [reflexivity|].
    apply IH. exact (fresh_alloc _ _ _ c Hf eq_refl).
  - apply IH. exact (fresh_grow _ _ _ c Hf).
Qed.

Lemma while_frontier_explored_only_eq sol0 : forall fuel st,
  fresh st ->
  while_frontier fuel p sol0 st = while_frontier_explored_only fuel p sol0 st.
Proof.
  induction fuel as [|fuel IH]; intros st Hf; [reflexivity|].
  cbn [while_frontier while_frontier_explored_only].
  destruct st as [fr ex xs]. cbn [frontier expanded explored].
  destruct fr as [|node rest]; [reflexivity|].
  unfold loop_body. cbn [frontier expanded explored].
  assert (Hf1 : fresh (mkState rest ex (xs ++ [getState (obj node)])))
    by exact (fresh_pop _ _ _ _ _ Hf).
  rewrite <- (for_actions_explored_only_eq _ _ _ Hf1).
  pose proof (for_actions_spec p node (actions p (getState (obj node))) _ Hf1)
    as Hspec.
  destruct (for_actions p node (actions p (getState (obj node)))
              (mkState rest ex (xs ++ [getState (obj node)])))
    as [sol st'|st']; [reflexivity|].
  destruct Hspec as (new & Hc). apply IH. exact (fc_fresh _ _ _ _ _ _ Hc).
Qed.

Lemma node_ok_root : node_ok p (mkPtr 0 (Node_root (initial p))).
Proof. exists []. simpl. auto. Qed.

Lemma node_ok_child d node q a :
  sound_at p d node -> In a (actions p (state (obj node))) ->
  obj q = child_of p node a -> node_ok p q.
Proof.
  intros Hn Ha Hq.
  destruct (child_sound p d node q a Hn Ha Hq) as (acts & Hs & _ & HL & HE).
  exists acts. repeat split; try assumption.
  rewrite Hq. unfold child_of, solution. simpl. now rewrite last_last.
Qed.

(** What one iteration does to the nodes allocated (as the constructor
    built them) and the states explored, whichever way it leaves the
    range-[for]. *)
Lemma loop_body_trace m node A B st :
  Inv p m (node :: A) B st ->
  (forall q, In q (expanded st) -> node_ok p q) ->
  match loop_body p node (A ++ B) st with
  | Continue st' => forall q, In q (expanded st') -> node_ok p q
  | Return _ st' =>
      (forall q, In q (expanded st') -> node_ok p q) /\
      explored st' = explored st ++ [state (obj node)] /\
      ~ In (goal p) (explored st')
  end.
Proof.
  intros HI Hok.
  pose proof (inv_frontier _ _ _ _ _ HI) as Fr.
  pose proof (inv_fresh _ _ _ _ _ HI) as Fh.
  assert (Hnode : sound_at p m node)
    by (apply (inv_A _ _ _ _ _ HI); now left).
  unfold loop_body, getState.
  set (st1 := mkState (A ++ B) (expanded st) (explored st ++ [state (obj node)])).
  assert (Hf1 : fresh st1).
  { unfold fresh in *. rewrite Fr in Fh. simpl in *. now inversion Fh. }
  pose proof (for_actions_spec p node (actions p (state (obj node))) st1 Hf1)
    as Hspec.
  destruct (for_actions p node (actions p (state (obj node))) st1)
    as [sol st'|st'].
  - destruct Hspec as [E X (a & c & _ & _ & _ & _ & _ & Hn)].
    simpl in E, X, Hn. split; [|split].
    + intros q Hq. destruct (X q Hq) as [H|(b & Hb & Hc)]; [now apply Hok|].
      exact (node_ok_child m node q b Hnode Hb Hc).
    + exact E.
    + now rewrite E.
  - destruct Hspec as (new & [E F Fn X N Al]). simpl in X.
    intros q Hq. destruct (X q Hq) as [H|(b & Hb & Hc)]; [now apply Hok|].
    exact (node_ok_child m node q b Hnode Hb Hc).
Qed.

Lemma while_frontier_trace sol0 : forall fuel m A B st r st',
  Inv p m A B st ->
  (forall q, In q (expanded st) -> node_ok p q) ->
  while_frontier fuel p sol0 st = Some (r, st') ->
  (forall q, In q (expanded st') -> node_ok p q) /\
  (forall s, In s (explored st') -> reach p s) /\
  (In (goal p) (explored st') -> initial p = goal p).
Proof.
  induction fuel as [|fuel IH]; intros m A B st r st' HI Hok Hrun;
    [discriminate|].
  simpl in Hrun. destruct (frontier st) as [|node rest] eqn:Hfr.
  - injection Hrun as <- <-. split; [exact Hok|]. split.
    + exact (inv_explored _ _ _ _ _ HI).
    + intros Hg. destruct (Z.eq_dec (initial p) (goal p)) as [E|E]; [exact E|].
      destruct (proj2 (inv_nogoal _ _ _ _ _ HI E) Hg).
  - destruct (Inv_front _ _ _ _ _ _ _ HI Hfr) as (m' & A' & B' & HI' & ->).
    pose proof (loop_body_trace _ _ _ _ _ HI' Hok) as Ht.
    destruct (loop_body p node (A' ++ B') st) as [sol st1|st1] eqn:Hbody.
    + injection Hrun as <- <-. destruct Ht as (Hn & He & Hg).
      split; [exact Hn|]. split; [|intros H; destruct (Hg H)].
      intros s Hs. rewrite He in Hs. apply in_app_or in Hs.
      destruct Hs as [Hs|[<-|[]]].
      * exact (inv_explored _ _ _ _ _ HI' s Hs).
      * apply (sound_reach p m'). apply (inv_A _ _ _ _ _ HI'). now left.
    + destruct (Inv_step _ _ _ _ _ _ _ HI' Hbody) as (_ & new & _ & _ & HI1).
      exact (IH _ _ _ _ _ _ HI1 Ht Hrun).
Qed.

End Trace.

Lemma BFS_run_trace p fuel r st :
  BFS_run fuel p = Some (r, st) ->
  (forall q, In q (expanded st) -> node_ok p q) /\
  (forall s, In s (explored st) -> reach p s) /\
  (In (goal p) (explored st) -> initial p = goal p).
Proof.
  apply (while_frontier_trace p _ fuel _ _ _ _ _ _ (Inv_init p)).
  intros q [<-|[]]. apply node_ok_root.
Qed.

(** X9: the test of the frontier in [BFS] never finds the child, whose
    pointer is new: for every Problem the search returns what the search
    that tests the explored states alone returns, with the same
    collections. *)
Theorem frontier_test_never_succeeds p fuel :
  BFS_run fuel p
  = while_frontier_explored_only fuel p (BFS_solution0 p) (BFS_init p).
Proof.
  apply while_frontier_explored_only_eq.
  unfold fresh, BFS_init. simpl. repeat constructor.
Qed.

(** X10: when [BFS] returns a deque (the exit at the end of the loop,
    where no node has been deleted), every node the search allocated
    caches a solution that is the sentinel followed by offered actions
    leading from the initial state to the node's state, and the node's
    action is the last entry of it. *)
Theorem allocated_nodes_replay p fuel sol st :
  BFS_run fuel p = Some (Deque sol, st) ->
  forall q, In q (expanded st) -> node_ok p q.
Proof. intros H. exact (proj1 (BFS_run_trace p fuel _ st H)). Qed.

Lemma allocated_nodes_replay_witness :
  exists sol st,
    BFS_run 14 (BFSProblem.make RPCGW 0) = Some (Deque sol, st) /\
    Forall (node_ok (BFSProblem.make RPCGW 0)) (expanded st).
Proof.
  destruct (BFS_run 14 (BFSProblem.make RPCGW 0)) as [[[sol|c] st]|] eqn:E;
    [ | vm_compute in E; discriminate E | vm_compute in E; discriminate E ].
  exists sol, st. split; [reflexivity|].
  apply Forall_forall. intros q Hq.
  exact (allocated_nodes_replay (BFSProblem.make RPCGW 0) 14 sol st E q Hq).
Defined.

(** X11: [BFS] expands only states that offered actions reach from the
    initial state, and never a goal state other than the initial state;
    when it returns the empty deque, or when the initial state is the
    goal, it has expanded every reachable state. *)
Theorem explored_states_reachable p fuel r st :
  BFS_run fuel p = Some (r, st) ->
  (forall s, In s (explored st) -> reach p s) /\
  (In (goal p) (explored st) -> initial p = goal p) /\
  (r = Deque [] \/ initial p = goal p ->
   forall s, reach p s -> In s (explored st)).
Proof.
  intros H. destruct (BFS_run_trace p fuel r st H) as (_ & H1 & H2).
  split; [exact H1|]. split; [exact H2|].
  intros Hr s (acts & HL & <-).
  destruct (BFS_run_post p fuel r st H)
    as [_ [(_ & Hall & _)|(Hne & c & acts' & -> & _)]].
  - now apply Hall.
  - destruct Hr as [Hr|Hr]; [discriminate Hr | contradiction].
Qed.

Lemma explored_states_reachable_witness :
  exists r st, BFS_run 20 (BFSProblem.make RPCGW RPCGW) = Some (r, st) /\
    (forall s, In s (explored st) -> reach (BFSProblem.make RPCGW RPCGW) s) /\
    (In RPCGW (explored st) -> RPCGW = RPCGW) /\
    (r = Deque [] \/ RPCGW = RPCGW ->
     forall s, reach (BFSProblem.make RPCGW RPCGW) s -> In s (explored st)).
Proof.
  destruct (BFS_run 20 (BFSProblem.make RPCGW RPCGW)) as [[r st]|] eqn:E;
    [|vm_compute in E; discriminate E].
  exists r, st. split; [reflexivity|].
  exact (explored_states_reachable (BFSProblem.make RPCGW RPCGW) 20 r st E).
Defined.

(** ** What [main] prints *)

Lemma describe_other a : ~ In a move_codes -> describe a = None.
Proof.
  intros H. unfold describe.
  repeat match goal with
         | |- context [if ?x =? ?y then _ else _] =>
             let E := fresh "E" in
             destruct (Z.eqb_spec x y) as [E|E];
             [exfalso; apply H; rewrite E; simpl; tauto|]
         end.
  reflexivity.
Qed.

Lemma describe_move a : In a move_codes -> exists line, describe a = Some line.
Proof.
  intros H. unfold move_codes in H.
  repeat (destruct H as [<-|H]; [eexists; vm_compute; reflexivity|]).
  destruct H.
Qed.

Lemma describe_Some_move a line : describe a = Some line -> In a move_codes.
Proof.
  intros H. destruct (in_dec Z.eq_dec a move_codes) as [Ha|Ha]; [exact Ha|].
  rewrite (describe_other a Ha) in H. discriminate H.
Qed.

Lemma print_move_codes acts :
  Forall (fun a => In a move_codes) acts ->
  map describe acts = map Some (print_solution acts).
Proof.
  induction 1 as [|a acts Ha _ IH]; [reflexivity|].
  destruct (describe_move a Ha) as (line & E).
  simpl. rewrite E. simpl. now rewrite IH.
Qed.

(** A legal sequence of the river-crossing problem holds move codes only. *)
Lemma legal_move_codes i g acts : forall s,
  legal (BFSProblem.make i g) s acts -> Forall (fun a => In a move_codes) acts.
Proof.
  induction acts as [|a acts IH]; intros s HL; [constructor|].
  destruct HL as [Ha HL]. simpl in Ha. constructor.
  - exact (proj1 (offer_ok_inv _ _ (offer_ok_all _ _ Ha))).
  - exact (IH _ HL).
Qed.

(** X12: the [switch] of [main] writes a line exactly for the eight move
    codes and nothing for any other action (the sentinel 0 among them), and
    different move codes get different lines. *)
Theorem describe_distinguishes_move_codes :
  (forall a, describe a = None <-> ~ In a move_codes) /\
  describe 0 = None /\
  (forall a b line, describe a = Some line -> describe b = Some line -> a = b).
Proof.
  split; [|split].
  - intros a. split.
    + intros H Ha. destruct (describe_move a Ha) as (line & E). congruence.
    + apply describe_other.
  - reflexivity.
  - intros a b line Ha Hb.
    pose proof (describe_Some_move _ _ Ha) as Ia.
    pose proof (describe_Some_move _ _ Hb) as Ib.
    unfold move_codes in Ia, Ib.
    repeat (destruct Ia as [<-|Ia];
            [repeat (destruct Ib as [<-|Ib];
                     [first [reflexivity
                            | vm_compute in Ha, Hb; congruence]|]);
             destruct Ib|]).
    destruct Ia.
Qed.

(** X13: for every sequence of actions the table of [actions] offers one
    after the other, from any state, the printing loop of [main] writes
    exactly one line per action, in order; a sentinel 0 in front of the
    sequence adds no line. *)
Theorem print_solution_one_line_per_move i g s acts :
  legal (BFSProblem.make i g) s acts ->
  length (print_solution acts) = length acts /\
  map describe acts = map Some (print_solution acts) /\
  print_solution (0 :: acts) = print_solution acts.
Proof.
  intros HL.
  pose proof (print_move_codes acts (legal_move_codes i g acts s HL)) as E.
  split; [|split; [exact E | reflexivity]].
  apply (f_equal (@length _)) in E. rewrite !length_map in E.
  symmetry. exact E.
Qed.

Lemma print_solution_one_line_per_move_witness :
  length (print_solution main_moves) = length main_moves /\
  map describe main_moves = map Some (print_solution main_moves) /\
  print_solution (0 :: main_moves) = print_solution main_moves.
Proof.
  apply (print_solution_one_line_per_move RPCGW PCGWR RPCGW main_moves).
  cbv. tauto.
Defined.

(** The instance of [main] is solvable, so the lines [main] writes are not
    defined: the deque it prints comes from the deleted child. *)
Lemma main_output_undefined : main_output 10 = Some None.
Proof. vm_compute. reflexivity. Qed.

(** ** Which exit a search takes *)

(** X14: for every Problem whose states are [short]s, with or without
    cycles, the loop of [BFS] ends; it ends at the success exit, where the
    goal child is deleted and then asked for its solution, exactly when
    the goal is not the initial state and some sequence of offered actions
    reaches it, and otherwise [BFS] returns the deque it holds at the end
    of the loop. *)
Theorem BFS_success_exit_iff_solvable p :
  well_typed p ->
  exists fuel r, BFS fuel p = Some r /\
    ((exists c, r = ReadDeleted c) <->
     (initial p <> goal p /\ exists acts, solves p acts)).
Proof.
  intros Hwt.
  destruct (BFS_terminates p _ (well_typed_universe p Hwt)) as (fuel & r & H).
  exists fuel, r. split; [exact H|].
  destruct (BFS_correct _ _ _ H)
    as [[-> Hno]|[[-> E]|(Hne & c & acts & -> & _ & Hs & _)]].
  - split; [intros (c & Hc); discriminate Hc|].
    intros (_ & acts & Hs). destruct (Hno acts Hs).
  - split; [intros (c & Hc); discriminate Hc|].
    intros (Hne & _). contradiction.
  - split; [intros _; split; [exact Hne | now exists acts]|].
    intros _. now exists c.
Qed.

Lemma BFS_success_exit_iff_solvable_witness :
  exists fuel r, BFS fuel main_problem = Some r /\
    ((exists c, r = ReadDeleted c) <->
     (initial main_problem <> goal main_problem /\
      exists acts, solves main_problem acts)).
Proof.
  apply (BFS_success_exit_iff_solvable main_problem).
  apply BFSProblem_well_typed. unfold short_range, RPCGW. lia.
Defined.
